(** * Grover search over a dense state-vector simulator

    A shallow embedding of [src/grover.py] (functions [make_f] and
    [run_experiment]) together with the linear-algebra collaborator it
    consumes ([ops], [state], [helper]), and the properties of the
    amplitude-amplification pipeline.

    Amplitudes are complex numbers over the mathematical reals: the
    algebraic identities below are those of the operators themselves, not of
    their binary64 approximations.  The one place where the program computes
    with floats and then converts to an integer, the iteration count, is
    embedded bit for bit over primitive floats ([iterations]);
    [iterations_real] is the integer part of the exact value. *)

From Stdlib Require Import Floats.
From Stdlib Require Import Reals Lra Lia Psatz ZArith List Bool Arith PeanoNat.
From Stdlib Require Import Zfloor Ratan Machin.
From Stdlib Require String Ascii.
Import ListNotations.

Set Implicit Arguments.

(* ================================================================== *)
(** * Complex amplitudes *)
(* ================================================================== *)

Module Cplx.

#[local] Open Scope R_scope.

Record C : Type := mkC { Re : R; Im : R }.

Definition RtoC (x : R) : C := mkC x 0.
Definition C0 : C := RtoC 0.
Definition C1 : C := RtoC 1.
Definition Cadd (a b : C) : C := mkC (Re a + Re b) (Im a + Im b).
Definition Copp (a : C) : C := mkC (- Re a) (- Im a).
Definition Csub (a b : C) : C := Cadd a (Copp b).
Definition Cmul (a b : C) : C :=
  mkC (Re a * Re b - Im a * Im b) (Re a * Im b + Im a * Re b).
Definition Cconj (a : C) : C := mkC (Re a) (- Im a).

(** Squared magnitude, the probability carried by an amplitude. *)
Definition Cnorm2 (a : C) : R := Re a * Re a + Im a * Im a.

(** Sum of [f 0 .. f (n-1)]. *)
Fixpoint Csum (f : nat -> C) (n : nat) : C :=
  match n with
  | O => C0
  | S k => Cadd (Csum f k) (f k)
  end.

End Cplx.

Export Cplx.

Declare Scope C_scope.
Delimit Scope C_scope with C.
Bind Scope C_scope with C.
Infix "+" := Cadd : C_scope.
Infix "*" := Cmul : C_scope.
Infix "-" := Csub : C_scope.
Notation "- x" := (Copp x) : C_scope.

(* ================================================================== *)
(** * Errors raised by the pipeline *)
(* ================================================================== *)

Inductive error : Type :=
| ConstructionError   (* the oracle builder rejected the predicate *)
| AssertionError      (* the selected winner does not satisfy the predicate *)
| OverflowError       (* number too large for the conversion *)
| ValueError.         (* not a number *)

Inductive result (A : Type) : Type :=
| Ok (a : A)
| Raise (e : error).

Arguments Ok {A} a.
Arguments Raise {A} e.

Definition bind {A B : Type} (r : result A) (k : A -> result B) : result B :=
  match r with
  | Ok a => k a
  | Raise e => Raise e
  end.

Notation "x <- r ;; k" := (bind r (fun x => k))
  (at level 61, r at next level, right associativity).

(* ================================================================== *)
(** * The linear-algebra collaborator *)
(* ================================================================== *)

(** The modules [src.lib.ops], [src.lib.state] and [src.lib.helper] are
    imported by [grover.py]; they are embedded here through the interface
    the pipeline consumes. *)

Module Lib.

#[local] Open Scope nat_scope.

(** A basis bit string, most significant line first. *)
Definition bits := list bool.

Definition b2n (b : bool) : nat := if b then 1 else 0.

(** Modelled from the spec: [helper.bits2val], the interface
    [BitsToIndex(bits...)], "deterministic bijection from an n-bit tuple to
    an integer in [0, 2^n)"; lines are ordered most significant first, as
    the tensor product orders "A's lines before B's". *)
Definition bits2val (bs : bits) : nat :=
  fold_left (fun acc b => 2 * acc + b2n b) bs 0.

(** Modelled from the spec: the inverse direction of [BitsToIndex], the
    [nbits]-line bit string of a basis index (what [helper.bitprod]
    enumerates in index order). *)
Fixpoint val2bits (nbits : nat) (v : nat) : bits :=
  match nbits with
  | O => []
  | S k => val2bits k (v / 2) ++ [Nat.odd v]
  end.

(** An operator over [op_nbits] lines: a [2^op_nbits] square matrix. *)
Record Operator : Type := mkOp { op_nbits : nat; op_at : nat -> nat -> C }.

(** A state over [st_nbits] lines: a vector of [2^st_nbits] amplitudes. *)
Record State : Type := mkState { st_nbits : nat; st_at : nat -> C }.

Definition delta (i j : nat) : C := if i =? j then C1 else C0.

(** Modelled from the spec: [ops.Identity], "[Identity(k)]: returns the
    2^k x 2^k identity Operator". *)
Definition Identity (k : nat) : Operator := mkOp k delta.

(** Modelled from the spec: the tensor product on operators,
    "[TensorProduct(A, B)]: returns the Kronecker-product Operator/State
    combining A and B's qubit lines, A's lines ordered before B's". *)
Definition TensorProduct (A B : Operator) : Operator :=
  let d := 2 ^ op_nbits B in
  mkOp (op_nbits A + op_nbits B)
       (fun i j => (op_at A (i / d) (j / d) * op_at B (i mod d) (j mod d))%C).

(** Modelled from the spec: the same tensor product on states. *)
Definition TensorState (a b : State) : State :=
  let d := 2 ^ st_nbits b in
  mkState (st_nbits a + st_nbits b)
          (fun i => (st_at a (i / d) * st_at b (i mod d))%C).

(** Modelled from the spec: operator application to an operator,
    "[Compose(A, B)]: returns the Operator equal to matrix-multiplying A by
    B (apply B first, then A)". *)
Definition Compose (A B : Operator) : Operator :=
  mkOp (op_nbits A)
       (fun i j => Csum (fun k => (op_at A i k * op_at B k j)%C)
                        (2 ^ op_nbits A)).

(** Modelled from the spec: operator application to a state, "when B is a
    State, returns the new State A·B". *)
Definition Apply (A : Operator) (psi : State) : State :=
  mkState (st_nbits psi)
          (fun i => Csum (fun k => (op_at A i k * st_at psi k)%C)
                         (2 ^ op_nbits A)).

(** Entrywise scaling and difference of the underlying arrays. *)
Definition op_scale (A : Operator) (c : R) : Operator :=
  mkOp (op_nbits A) (fun i j => (op_at A i j * RtoC c)%C).

Definition op_sub (A B : Operator) : Operator :=
  mkOp (op_nbits A) (fun i j => (op_at A i j - op_at B i j)%C).

(** The one-line Hadamard matrix, [1/sqrt 2 * [[1, 1], [1, -1]]]. *)
Definition Hadamard1 : Operator :=
  mkOp 1 (fun i j =>
            if (i =? 1) && (j =? 1) then RtoC (- / sqrt 2)
            else RtoC (/ sqrt 2)).

(** Kronecker power. *)
Fixpoint kpow (A : Operator) (k : nat) : Operator :=
  match k with
  | O => Identity 0
  | S k' => TensorProduct (kpow A k') A
  end.

(** Modelled from the spec: [ops.Hadamard], "[Hadamard(k)] / [Hadamard()]:
    returns the Hadamard operator over k lines (default k=1)". *)
Definition Hadamard (k : nat) : Operator := kpow Hadamard1 k.

(** Modelled from the spec: [state.zeros] and [state.ones], the basis states
    with every line 0, respectively every line 1 ("produced by tensoring
    per-qubit basis states"). *)
Definition zeros (d : nat) : State := mkState d (fun i => delta i 0).
Definition ones (d : nat) : State := mkState d (fun i => delta i (2 ^ d - 1)).

(** Modelled from the spec: [State.apply], "[ApplyToLine(state, op,
    line_index)]: returns a new State with op applied to the single line at
    line_index, all other lines unchanged".  Line [idx] is the bit of weight
    [2^(nbits-1-idx)] of the basis index. *)
Definition ApplyToLine (psi : State) (op : Operator) (idx : nat) : State :=
  let m := 2 ^ (st_nbits psi - 1 - idx) in
  mkState (st_nbits psi)
          (fun j =>
             let hi := j / (2 * m) in
             let b := (j / m) mod 2 in
             let lo := j mod m in
             (op_at op b 0 * st_at psi (hi * (2 * m) + lo)
              + op_at op b 1 * st_at psi (hi * (2 * m) + m + lo))%C).

(** Probability of the basis state of index [j]. *)
Definition prob (psi : State) (j : nat) : R := Cnorm2 (st_at psi j).

(** One step of the scan for the most probable basis state. *)
Definition maxprob_step (psi : State) (acc : nat * R) (j : nat) : nat * R :=
  if Rlt_dec (snd acc) (prob psi j) then (j, prob psi j) else acc.

(** Index and probability of the first basis state of largest probability. *)
Definition maxprob_index (psi : State) : nat * R :=
  fold_left (maxprob_step psi) (seq 0 (2 ^ st_nbits psi)) (0, 0%R).

(** Modelled from the spec: [State.maxprob], "[MaxProbability(state)]:
    returns the basis bit-string(s) of maximal squared-magnitude and their
    probability value(s)".  Basis strings are scanned in index order and the
    first one of largest probability is returned. *)
Definition maxprob (psi : State) : bits * R :=
  let r := maxprob_index psi in
  (val2bits (st_nbits psi) (fst r), snd r).

(** A predicate as the oracle builder receives it: a function of the input
    bit string returning an integer. *)
Definition Predicate := bits -> Z.

(** The basis index the oracle sends [col] to: the ancilla (last line) is
    replaced by its exclusive or with the predicate of the other lines. *)
Definition oracle_image (nlines : nat) (f : Predicate) (col : nat) : nat :=
  let bs := val2bits nlines col in
  let x := removelast bs in
  let y := last bs false in
  bits2val (x ++ [xorb y (Z.eqb (f x) 1)]).

(** The predicate returns 0 or 1 on every input of [nlines - 1] bits. *)
Definition predicate_boolean (nlines : nat) (f : Predicate) : bool :=
  forallb (fun x => let v := f (val2bits (nlines - 1) x) in
                    Z.eqb v 0 || Z.eqb v 1)
          (seq 0 (2 ^ (nlines - 1))).

(** Modelled from the spec: [ops.OracleUf], "given n (input qubit count) and
    a Predicate over n bits, produce an Operator over n+1 qubit lines ...:
    for every basis state |x>|y>, the operator maps |x>|y> to
    |x>|y xor f(x)>", with "Predicate must be total over all 2^n inputs and
    return only 0 or 1; any other value is a fatal construction error".  The
    first argument is the number of lines of the operator, ancilla
    included. *)
Definition OracleUf (nlines : nat) (f : Predicate) : result Operator :=
  if predicate_boolean nlines f then
    Ok (mkOp nlines
             (fun row col => if row =? oracle_image nlines f col then C1
                             else C0))
  else Raise ConstructionError.

End Lib.

Export Lib.

(* ================================================================== *)
(** * The program: [grover.py] *)
(* ================================================================== *)

Module Grover.

#[local] Open Scope nat_scope.

(** Assignment to one cell of an array. *)
Fixpoint array_set (A : Type) (l : list A) (i : nat) (v : A) : list A :=
  match l, i with
  | [], _ => []
  | _ :: t, O => v :: t
  | h :: t, S i' => h :: array_set t i' v
  end.

(** [make_f]: the predicate that returns 1 on a single bit string.  The
    target drawn by [np.random.randint(0, num_inputs)] is the explicit
    argument [answer_true]. *)
Definition make_f (d : nat) (answer_true : nat) : Predicate :=
  let num_inputs := 2 ^ d in
  let answers := array_set (repeat 0%Z num_inputs) answer_true 1%Z in
  fun bs => nth (bits2val bs) answers 0%Z.

(** [zero_projector]: all zero but for a 1 at [0, 0]. *)
Definition zero_projector (i j : nat) : C :=
  if (i =? 0) && (j =? 0) then C1 else C0.

Definition op_zero (nbits : nat) : Operator := mkOp nbits zero_projector.

(** [reflection = op_zero * 2.0 - ops.Identity(nbits)]. *)
Definition reflection (nbits : nat) : Operator :=
  op_sub (op_scale (op_zero nbits) 2) (Identity nbits).

(** The diffusion operator on the search lines, [hn(reflection(hn))]. *)
Definition diffusion (nbits : nat) : Operator :=
  let hn := Hadamard nbits in
  Compose hn (Compose (reflection nbits) hn).

(** [inversion = hn(reflection(hn)) * ops.Identity()]. *)
Definition inversion (nbits : nat) : Operator :=
  TensorProduct (diffusion nbits) (Identity 1).

(** [grover = inversion(u)]. *)
Definition grover (nbits : nat) (u : Operator) : Operator :=
  Compose (inversion nbits) u.

(** The state before the loop: [zeros(nbits) * ones(1)], then the one-line
    Hadamard applied to each of the lines [0 .. nbits] in turn. *)
Definition initial_state (nbits : nat) : State :=
  let h := Hadamard 1 in
  fold_left (fun psi i => ApplyToLine psi h i)
            (seq 0 (nbits + 1))
            (TensorState (zeros nbits) (ones 1)).

(** ** The iteration count, in binary64 arithmetic as the program has it *)

Definition math_pi : float := 0x1.921fb54442d18p+1%float.

(** Conversion of the integer [2**nbits] to a float, as [math.sqrt] does
    with an integer argument. *)
Definition float_of_pow2 (nbits : nat) : result float :=
  if nbits <=? 1023 then Ok (Z.ldexp 1%float (Z.of_nat nbits))
  else Raise OverflowError.

(** [int(x)] on a float. *)
Definition int_of_float (x : float) : result Z :=
  match Prim2SF x with
  | S754_zero _ => Ok 0%Z
  | S754_finite s m e =>
      let a := (if (0 <=? e)%Z then Z.shiftl (Zpos m) e
                else Z.shiftr (Zpos m) (- e))%Z in
      Ok (if s then (- a)%Z else a)
  | S754_infinity _ => Raise OverflowError
  | S754_nan => Raise ValueError
  end.

(** [iterations = int(math.pi / 4 * math.sqrt(n))] with [n = 2**nbits],
    every operation rounded as the program rounds it. *)
Definition iterations (nbits : nat) : result Z :=
  n <- float_of_pow2 nbits ;;
  int_of_float (PrimFloat.mul (PrimFloat.div math_pi 4%float)
                              (PrimFloat.sqrt n)).

(** The amplification loop, [for _ in range(iterations): psi = grover(psi)]. *)
Definition amplify (g : Operator) (r : Z) (psi : State) : State :=
  Nat.iter (Z.to_nat r) (Apply g) psi.

(** The end of [run_experiment]: the most probable basis string, the
    predicate on it without its last bit, and the check of the outcome.  A
    normal return carries what the run reports: the string and its
    probability. *)
Definition select_outcome (f : Predicate) (psi : State) : result (bits * R) :=
  let '(maxbits, maxprobs) := maxprob psi in
  let res := f (removelast maxbits) in
  if negb (Z.eqb res 1) then Raise AssertionError
  else Ok (maxbits, maxprobs).

(** [run_experiment], for the target [answer_true] drawn by [make_f]. *)
Definition run_experiment (nbits : nat) (answer_true : nat)
  : result (bits * R) :=
  let f := make_f nbits answer_true in
  u <- OracleUf (nbits + 1) f ;;
  let psi := initial_state nbits in
  let g := grover nbits u in
  r <- iterations nbits ;;
  let psi' := amplify g r psi in
  select_outcome f psi'.

End Grover.

Export Grover.

(* ================================================================== *)
(** * The specification's formulas for the iteration count *)
(* ================================================================== *)

Module SpecFormulas.

#[local] Open Scope R_scope.

(** [round(x)]: to the nearest integer, a tie going to the even one. *)
Definition py_round (x : R) : Z :=
  let f := Zfloor x in
  if Rlt_dec (x - IZR f) (/ 2) then f
  else if Rlt_dec (/ 2) (x - IZR f) then (f + 1)%Z
  else if Z.even f then f else (f + 1)%Z.

(** The specification's count, [r = floor(pi/4 * sqrt N + 0.5)]. *)
Definition round_nearest_iterations (nbits : nat) : Z :=
  Zfloor (PI / 4 * sqrt (INR (2 ^ nbits)) + / 2).

(** The specification's second derivation,
    [r = round(arccos(1/sqrt N) / (2 * arcsin(1/sqrt N)))]. *)
Definition trig_iterations (nbits : nat) : Z :=
  let x := / sqrt (INR (2 ^ nbits)) in
  py_round (acos x / (2 * asin x)).

End SpecFormulas.

Export SpecFormulas.

(* ================================================================== *)
(** * Quantities the statements are written with *)
(* ================================================================== *)

Module Quantities.

#[local] Open Scope R_scope.

(** Truncation of a real number towards zero. *)
Definition py_int (x : R) : Z :=
  if Rle_dec 0 x then Zfloor x else Zceil x.

(** The integer part of [pi/4 * sqrt (2^nbits)] in exact real arithmetic:
    the value the binary64 computation of [iterations] approximates. *)
Definition iterations_real (nbits : nat) : Z :=
  py_int (PI / 4 * sqrt (INR (2 ^ nbits))).

(** Number of passes the loop of [run_experiment] makes: the count
    [iterations] returns, and none when that computation raises. *)
Definition passes (nbits : nat) : Z :=
  match iterations nbits with
  | Ok r => r
  | Raise _ => 0%Z
  end.

(** The entry [1/sqrt 2] of the Hadamard matrix. *)
Definition inv_sqrt2 : R := / sqrt 2.

(** Mean of the [2^n] components of a vector. *)
Definition mean (n : nat) (c : nat -> C) : C :=
  (Csum c (2 ^ n) * RtoC (/ INR (2 ^ n)))%C.

(** Conjugate transpose of an operator. *)
Definition adjoint (A : Operator) : Operator :=
  mkOp (op_nbits A) (fun i j => Cconj (op_at A j i)).

(** The basis state named by a bit string. *)
Definition basis_state (bs : bits) : State :=
  mkState (length bs) (fun i => delta i (bits2val bs)).

(** The predicate as a truth value on the basis index of its input. *)
Definition marked (n : nat) (f : Predicate) (x : nat) : bool :=
  Z.eqb (f (val2bits n x)) 1.

(** The matrix the oracle builder fills in for [n] input lines. *)
Definition oracle_matrix (n : nat) (f : Predicate) : Operator :=
  mkOp (n + 1)
       (fun row col =>
          if (row =? oracle_image (n + 1) f col)%nat then C1 else C0).

(** The ancilla after its Hadamard gate, [H|1>]. *)
Definition minus_state : State := Apply (Hadamard 1) (ones 1).

(** The state of the lines [0 .. nbits] after the first [k] Hadamard gates
    of the preparation loop. *)
Definition prepared (nbits k : nat) : State :=
  fold_left (fun psi i => ApplyToLine psi (Hadamard 1) i)
            (seq 0 k)
            (TensorState (zeros nbits) (ones 1)).

(** The phase the oracle gives to the search amplitude of index [x]. *)
Definition oracle_sign (n : nat) (f : Predicate) (x : nat) : C :=
  if marked n f x then RtoC (-1) else C1.

(** One Grover iteration seen on the search lines alone: the phase flip of
    the marked amplitudes, then the diffusion operator. *)
Definition search_step (n : nat) (f : Predicate) (phi : State) : State :=
  Apply (diffusion n)
        (mkState n (fun x => (oracle_sign n f x * st_at phi x)%C)).

(** A predicate for examples: 1 on the string of ones, 0 elsewhere. *)
Definition all_ones : Predicate :=
  fun x => Z.b2z (forallb (fun b : bool => b) x).

(** The uniform superposition of the [n] search lines. *)
Definition uniform (n : nat) : State :=
  mkState n (fun _ => RtoC (inv_sqrt2 ^ n)).

(** The search lines after [k] iterations. *)
Definition search_state (n : nat) (f : Predicate) (k : nat) : State :=
  Nat.iter k (search_step n f) (uniform n).

(** Amplitudes of the marked string and of any other string after [k]
    iterations, when a single string is marked: the marked amplitude changes
    sign, then both are reflected about the mean [u]. *)
Fixpoint grover_amps (n k : nat) : R * R :=
  match k with
  | O => (inv_sqrt2 ^ n, inv_sqrt2 ^ n)
  | S k' =>
      let a := fst (grover_amps n k') in
      let b := snd (grover_amps n k') in
      let u := (- a + (INR (2 ^ n) - 1) * b) / INR (2 ^ n) in
      (2 * u + a, 2 * u - b)
  end.

(** The search lines with amplitude [a] on [w] and [b] elsewhere. *)
Definition two_level (n w : nat) (ab : R * R) : State :=
  mkState n (fun x => RtoC (if (x =? w)%nat then fst ab else snd ab)).

(** The state of all lines after [k] passes of the loop body. *)
Definition loop_state (n : nat) (u : Operator) (k : nat) : State :=
  Nat.iter k (Apply (grover n u)) (initial_state n).

(** [1 / sqrt N], the sine of the rotation angle for a search space of
    size [N]. *)
Definition inv_sqrt (N : R) : R := / sqrt N.

(** [sqrt (N - 1)]. *)
Definition root_pred (N : R) : R := sqrt (N - 1).

(** The angle [arcsin (1 / sqrt N)]: an iteration rotates by twice it. *)
Definition grover_angle (N : R) : R := asin (inv_sqrt N).

(** The state [psi] holds when the run for the target [w] ends; it is the
    state [run_experiment] measures whenever the count is computed. *)
Definition final_state (n w : nat) : State :=
  amplify (grover n (oracle_matrix n (make_f n w))) (passes n)
          (initial_state n).

(** Probability that the search lines read [x], whatever the ancilla. *)
Definition line_prob (psi : State) (x : nat) : R :=
  prob psi (2 * x) + prob psi (2 * x + 1).

End Quantities.

Export Quantities.

(* ================================================================== *)
(** * The driver: [main] and the announcement of [make_f] *)
(* ================================================================== *)

Module Driver.

#[local] Open Scope nat_scope.

(** How [main] ends: the usage error, an exception of one of the runs, or
    the reports of all runs. *)
Inductive exit : Type :=
| UsageError
| Raised (e : error)
| Completed (reports : list (bits * R)).

(** [for nbits in sizes: run_experiment(nbits)]; the target each run draws
    is [draws nbits].  The first exception ends the loop. *)
Fixpoint run_sizes (draws : nat -> nat) (sizes : list nat)
  : result (list (bits * R)) :=
  match sizes with
  | [] => Ok []
  | nbits :: rest =>
      r <- run_experiment nbits (draws nbits) ;;
      rs <- run_sizes draws rest ;;
      Ok (r :: rs)
  end.

(** [main]: more than one command-line argument is a usage error;
    otherwise the experiment runs for [nbits] in [range(3, 8)]. *)
Definition main (argv : list String.string) (draws : nat -> nat) : exit :=
  if 1 <? length argv then UsageError
  else match run_sizes draws (seq 3 5) with
       | Ok reports => Completed reports
       | Raise e => Raised e
       end.

(** Binary digits of [v], most significant first, in front of [acc]; the
    fuel bounds the number of digits. *)
Fixpoint bin_digits (fuel v : nat) (acc : bits) : bits :=
  match fuel with
  | O => acc
  | S fuel' =>
      if v =? 0 then acc
      else bin_digits fuel' (v / 2) (Nat.odd v :: acc)
  end.

(** [format(v, '0{}b'.format(width))]: the binary digits of [v] (a single 0
    for [v = 0]), padded with zeros on the left up to [width] digits. *)
Definition format_b (width v : nat) : bits :=
  let ds := if v =? 0 then [false] else bin_digits v v [] in
  repeat false (width - length ds) ++ ds.

Definition bit_char (b : bool) : Ascii.ascii :=
  if b then Ascii.ascii_of_nat 49 else Ascii.ascii_of_nat 48.

(** The characters of a bit string. *)
Definition render (bs : bits) : String.string :=
  String.string_of_list_ascii (map bit_char bs).

(** [bit_string] of [make_f], the string it announces between
    ["Looking for: |"] and [">"]. *)
Definition bit_string (d answer_true : nat) : String.string :=
  render (format_b d answer_true).

End Driver.

Export Driver.

(* ================================================================== *)
(** * Exact quantities *)
(* ================================================================== *)

Module Exact.

#[local] Open Scope R_scope.

(** Sum of [f 0 .. f (n-1)] over the reals. *)
Fixpoint Rsum (f : nat -> R) (n : nat) : R :=
  match n with
  | O => 0
  | S k => Rsum f k + f k
  end.

(** The probabilities of all basis strings of a state, added up. *)
Definition total_prob (psi : State) : R :=
  Rsum (prob psi) (2 ^ st_nbits psi).

(** Integer numerators of the two amplitudes after [k] iterations over a
    search space of size [N]: the amplitudes are these numbers divided by
    [N^k * sqrt N]. *)
Fixpoint amps_num (N : Z) (k : nat) : Z * Z :=
  match k with
  | O => (1, 1)%Z
  | S k' =>
      let A := fst (amps_num N k') in
      let B := snd (amps_num N k') in
      ((N - 2) * A + 2 * (N - 1) * B, - 2 * A + (N - 2) * B)%Z
  end.

(** The probability of reading the marked string after [k] iterations, as a
    fraction of integers. *)
Definition success_fraction (n k : nat) : Z * Z :=
  let N := (2 ^ Z.of_nat n)%Z in
  ((fst (amps_num N k) * fst (amps_num N k))%Z, (N ^ (2 * Z.of_nat k + 1))%Z).

End Exact.

Export Exact.

(* ================================================================== *)
(** * Algebra of amplitudes *)
(* ================================================================== *)

Section ComplexRing.

#[local] Open Scope R_scope.

Lemma C_eq (a b : C) : Re a = Re b -> Im a = Im b -> a = b.
Proof. destruct a, b; simpl; intros -> ->; reflexivity. Qed.

Ltac c_ring := intros; apply C_eq; simpl; ring.

Lemma Cadd_0_l a : (C0 + a)%C = a.
Proof. c_ring. Qed.

Lemma Cadd_0_r a : (a + C0)%C = a.
Proof. c_ring. Qed.

Lemma Cadd_comm a b : (a + b)%C = (b + a)%C.
Proof. c_ring. Qed.

Lemma Cadd_assoc a b c : (a + (b + c))%C = (a + b + c)%C.
Proof. c_ring. Qed.

Lemma Cmul_1_l a : (C1 * a)%C = a.
Proof. c_ring. Qed.

Lemma Cmul_1_r a : (a * C1)%C = a.
Proof. c_ring. Qed.

Lemma Cmul_0_l a : (C0 * a)%C = C0.
Proof. c_ring. Qed.

Lemma Cmul_0_r a : (a * C0)%C = C0.
Proof. c_ring. Qed.

Lemma Cmul_comm a b : (a * b)%C = (b * a)%C.
Proof. c_ring. Qed.

Lemma Cmul_assoc a b c : (a * (b * c))%C = (a * b * c)%C.
Proof. c_ring. Qed.

Lemma Cmul_add_distr_r a b c : ((a + b) * c)%C = (a * c + b * c)%C.
Proof. c_ring. Qed.

Lemma Cmul_add_distr_l a b c : (a * (b + c))%C = (a * b + a * c)%C.
Proof. c_ring. Qed.

Lemma Csub_def a b : (a - b)%C = (a + - b)%C.
Proof. reflexivity. Qed.

Lemma Cadd_opp_r a : (a + - a)%C = C0.
Proof. c_ring. Qed.

Lemma C_ring_theory : ring_theory C0 C1 Cadd Cmul Csub Copp (@eq C).
Proof.
  constructor.
  - exact Cadd_0_l.
  - exact Cadd_comm.
  - exact Cadd_assoc.
  - exact Cmul_1_l.
  - exact Cmul_comm.
  - exact Cmul_assoc.
  - exact Cmul_add_distr_r.
  - exact Csub_def.
  - exact Cadd_opp_r.
Qed.

Lemma RtoC_add x y : RtoC (x + y) = (RtoC x + RtoC y)%C.
Proof. c_ring. Qed.

Lemma RtoC_mul x y : RtoC (x * y) = (RtoC x * RtoC y)%C.
Proof. c_ring. Qed.

Lemma RtoC_opp x : RtoC (- x) = (- RtoC x)%C.
Proof. c_ring. Qed.

Lemma RtoC_sub x y : RtoC (x - y) = (RtoC x - RtoC y)%C.
Proof. c_ring. Qed.

Lemma Cnorm2_RtoC x : Cnorm2 (RtoC x) = x * x.
Proof. unfold Cnorm2; simpl; ring. Qed.

Lemma Cnorm2_nonneg a : 0 <= Cnorm2 a.
Proof. unfold Cnorm2; nra. Qed.

End ComplexRing.

Add Ring C_ring : C_ring_theory.

(* ================================================================== *)
(** * Finite sums *)
(* ================================================================== *)

Section Sums.

#[local] Open Scope nat_scope.

Lemma Csum_ext f g n :
  (forall k, k < n -> f k = g k) -> Csum f n = Csum g n.
Proof.
  induction n as [|n IH]; intros H; simpl; [reflexivity|].
  rewrite IH, H; auto.
Qed.

Lemma Csum_zero f n : (forall k, k < n -> f k = C0) -> Csum f n = C0.
Proof.
  induction n as [|n IH]; intros H; simpl; [reflexivity|].
  rewrite IH, H; auto. ring.
Qed.

Lemma Csum_add f g n :
  Csum (fun k => (f k + g k)%C) n = (Csum f n + Csum g n)%C.
Proof. induction n as [|n IH]; simpl; [|rewrite IH]; ring. Qed.

Lemma Csum_sub f g n :
  Csum (fun k => (f k - g k)%C) n = (Csum f n - Csum g n)%C.
Proof. induction n as [|n IH]; simpl; [|rewrite IH]; ring. Qed.

Lemma Csum_mul_l c f n :
  Csum (fun k => (c * f k)%C) n = (c * Csum f n)%C.
Proof. induction n as [|n IH]; simpl; [|rewrite IH]; ring. Qed.

Lemma Csum_mul_r c f n :
  Csum (fun k => (f k * c)%C) n = (Csum f n * c)%C.
Proof. induction n as [|n IH]; simpl; [|rewrite IH]; ring. Qed.

Lemma Csum_const c n : Csum (fun _ => c) n = (RtoC (INR n) * c)%C.
Proof.
  induction n as [|n IH].
  - apply C_eq; simpl; ring.
  - cbn [Csum]. rewrite IH, S_INR, RtoC_add. fold C1. ring.
Qed.

(** A sum that meets a single non-zero term. *)
Lemma Csum_single f n a :
  a < n -> (forall k, k < n -> k <> a -> f k = C0) -> Csum f n = f a.
Proof.
  induction n as [|n IH]; intros Ha H; [lia|]. simpl.
  destruct (Nat.eq_dec a n) as [->|Hne].
  - rewrite Csum_zero; [ring|]. intros k Hk; apply H; lia.
  - rewrite IH; [|lia|intros; apply H; lia].
    rewrite (H n); [ring|lia|lia].
Qed.

Lemma Csum_delta_l f n a :
  a < n -> Csum (fun k => (delta a k * f k)%C) n = f a.
Proof.
  intros Ha. rewrite (Csum_single _ Ha).
  - unfold delta. rewrite Nat.eqb_refl. ring.
  - intros k _ Hk. unfold delta.
    destruct (Nat.eqb_spec a k); [lia|ring].
Qed.

Lemma Csum_delta_r f n a :
  a < n -> Csum (fun k => (f k * delta k a)%C) n = f a.
Proof.
  intros Ha. rewrite (Csum_single _ Ha).
  - unfold delta. rewrite Nat.eqb_refl. ring.
  - intros k _ Hk. unfold delta.
    destruct (Nat.eqb_spec k a); [lia|ring].
Qed.

(** Exchange of two finite sums. *)
Lemma Csum_swap (f : nat -> nat -> C) m n :
  Csum (fun i => Csum (fun j => f i j) n) m =
  Csum (fun j => Csum (fun i => f i j) m) n.
Proof.
  induction m as [|m IH]; simpl.
  - symmetry. apply Csum_zero. reflexivity.
  - rewrite IH, <- Csum_add. reflexivity.
Qed.

Lemma Csum_append f a d :
  Csum f (a + d) = (Csum f a + Csum (fun r => f (a + r)%nat) d)%C.
Proof.
  induction d as [|d IH].
  - rewrite Nat.add_0_r. simpl. ring.
  - rewrite Nat.add_succ_r. simpl. rewrite IH. ring.
Qed.

(** A sum over [m * d] indices, split by quotient and remainder. *)
Lemma Csum_product f m d :
  Csum f (m * d) =
  Csum (fun q => Csum (fun r => f (q * d + r)) d) m.
Proof.
  induction m as [|m IH]; simpl; [reflexivity|].
  rewrite <- IH.
  replace (d + m * d) with (m * d + d) by lia.
  apply Csum_append.
Qed.

End Sums.

(* ================================================================== *)
(** * Operators: tensor products and the Hadamard transform *)
(* ================================================================== *)

Section OperatorAlgebra.

#[local] Open Scope nat_scope.

Lemma pow2_pos n : 0 < 2 ^ n.
Proof. induction n; simpl; lia. Qed.

Lemma div_mod_unique_pair d q r :
  r < d -> (q * d + r) / d = q /\ (q * d + r) mod d = r.
Proof.
  intros Hr. split.
  - rewrite Nat.div_add_l by lia. rewrite Nat.div_small by lia. lia.
  - rewrite Nat.add_comm, Nat.Div0.mod_add. apply Nat.mod_small; lia.
Qed.

(** The product of two tensor products is the tensor product of the
    products. *)
Lemma Compose_TensorProduct A B A' B' i j :
  op_nbits B' = op_nbits B ->
  op_at (Compose (TensorProduct A B) (TensorProduct A' B')) i j =
  (op_at (Compose A A') (i / 2 ^ op_nbits B) (j / 2 ^ op_nbits B)
   * op_at (Compose B B') (i mod 2 ^ op_nbits B) (j mod 2 ^ op_nbits B))%C.
Proof.
  intros HB. cbn [Compose TensorProduct op_at op_nbits]. rewrite HB.
  set (d := 2 ^ op_nbits B). assert (Hd : 0 < d) by apply pow2_pos.
  rewrite Nat.pow_add_r. fold d. rewrite Csum_product.
  rewrite <- Csum_mul_r.
  apply Csum_ext. intros q _.
  rewrite <- Csum_mul_l.
  apply Csum_ext. intros r Hr.
  destruct (div_mod_unique_pair q Hr) as [-> ->]. ring.
Qed.

Lemma op_nbits_kpow A k : op_nbits (kpow A k) = k * op_nbits A.
Proof. induction k as [|k IH]; simpl; [reflexivity|]. rewrite IH. lia. Qed.

Lemma op_nbits_Hadamard k : op_nbits (Hadamard k) = k.
Proof. unfold Hadamard. rewrite op_nbits_kpow. simpl. lia. Qed.

End OperatorAlgebra.

Section HadamardFacts.

#[local] Open Scope R_scope.

Lemma sqrt2_pos : 0 < sqrt 2.
Proof. apply sqrt_lt_R0; lra. Qed.

Lemma inv_sqrt2_pos : 0 < inv_sqrt2.
Proof. apply Rinv_0_lt_compat, sqrt2_pos. Qed.

Lemma inv_sqrt2_sqr : inv_sqrt2 * inv_sqrt2 = / 2.
Proof.
  unfold inv_sqrt2. rewrite <- Rinv_mult. rewrite sqrt_sqrt by lra.
  reflexivity.
Qed.

Lemma Hadamard1_at i j :
  op_at Hadamard1 i j =
  if ((i =? 1) && (j =? 1))%nat then RtoC (- inv_sqrt2) else RtoC inv_sqrt2.
Proof. reflexivity. Qed.

Lemma Hadamard1_involutive i j :
  (i < 2)%nat -> (j < 2)%nat ->
  op_at (Compose Hadamard1 Hadamard1) i j = delta i j.
Proof.
  intros Hi Hj. cbn [Compose op_at op_nbits Hadamard1 Nat.pow Csum].
  fold inv_sqrt2.
  assert (Hs := inv_sqrt2_sqr).
  assert (i = 0 \/ i = 1)%nat as [-> | ->] by lia;
    assert (j = 0 \/ j = 1)%nat as [-> | ->] by lia;
    cbn; apply C_eq; cbn; nra.
Qed.

Lemma delta_div_mod i j d :
  (0 < d)%nat ->
  (delta (i / d) (j / d) * delta (i mod d) (j mod d))%C = delta i j.
Proof.
  intros Hd. unfold delta.
  destruct (Nat.eqb_spec i j) as [->|Hne].
  - rewrite !Nat.eqb_refl. ring.
  - destruct (Nat.eqb_spec (i / d) (j / d)) as [Hq|]; [|ring].
    destruct (Nat.eqb_spec (i mod d) (j mod d)) as [Hr|]; [|ring].
    exfalso. apply Hne.
    rewrite (Nat.div_mod_eq i d), (Nat.div_mod_eq j d), Hq, Hr.
    reflexivity.
Qed.

(** The Hadamard transform is its own inverse. *)
Lemma Hadamard_involutive n i j :
  (i < 2 ^ n)%nat -> (j < 2 ^ n)%nat ->
  op_at (Compose (Hadamard n) (Hadamard n)) i j = delta i j.
Proof.
  revert i j. induction n as [|n IH]; intros i j Hi Hj.
  - simpl in Hi, Hj. assert (i = 0)%nat by lia. assert (j = 0)%nat by lia.
    subst. cbn. apply C_eq; cbn; ring.
  - change (Hadamard (S n)) with (TensorProduct (Hadamard n) Hadamard1).
    rewrite Compose_TensorProduct by reflexivity.
    change (2 ^ op_nbits Hadamard1)%nat with 2%nat.
    rewrite Nat.pow_succ_r' in Hi, Hj.
    rewrite IH by (apply Nat.Div0.div_lt_upper_bound; lia).
    rewrite Hadamard1_involutive by (apply Nat.mod_upper_bound; lia).
    apply delta_div_mod. lia.
Qed.

(** The first column of the Hadamard transform is constant. *)
Lemma Hadamard_col0 n i :
  (i < 2 ^ n)%nat -> op_at (Hadamard n) i 0 = RtoC (inv_sqrt2 ^ n).
Proof.
  revert i. induction n as [|n IH]; intros i Hi.
  - simpl in Hi. assert (i = 0)%nat by lia. subst. reflexivity.
  - change (Hadamard (S n)) with (TensorProduct (Hadamard n) Hadamard1).
    cbn [TensorProduct op_at]. change (2 ^ op_nbits Hadamard1)%nat with 2%nat.
    rewrite Nat.pow_succ_r' in Hi.
    change (0 / 2)%nat with 0%nat. change (0 mod 2)%nat with 0%nat.
    rewrite IH by (apply Nat.Div0.div_lt_upper_bound; lia).
    rewrite Hadamard1_at, Bool.andb_false_r.
    rewrite <- RtoC_mul. f_equal. simpl. ring.
Qed.

(** The first row of the Hadamard transform is constant. *)
Lemma Hadamard_row0 n j :
  (j < 2 ^ n)%nat -> op_at (Hadamard n) 0 j = RtoC (inv_sqrt2 ^ n).
Proof.
  revert j. induction n as [|n IH]; intros j Hj.
  - simpl in Hj. assert (j = 0)%nat by lia. subst. reflexivity.
  - change (Hadamard (S n)) with (TensorProduct (Hadamard n) Hadamard1).
    cbn [TensorProduct op_at]. change (2 ^ op_nbits Hadamard1)%nat with 2%nat.
    rewrite Nat.pow_succ_r' in Hj.
    change (0 / 2)%nat with 0%nat. change (0 mod 2)%nat with 0%nat.
    rewrite IH by (apply Nat.Div0.div_lt_upper_bound; lia).
    rewrite Hadamard1_at. cbn [Nat.eqb andb].
    rewrite <- RtoC_mul. f_equal. simpl. ring.
Qed.

Lemma inv_sqrt2_pow_sqr n :
  inv_sqrt2 ^ n * inv_sqrt2 ^ n = / INR (2 ^ n).
Proof.
  rewrite <- Rpow_mult_distr, inv_sqrt2_sqr, pow_inv.
  rewrite pow_INR. reflexivity.
Qed.

End HadamardFacts.

(* ================================================================== *)
(** * The diffusion operator *)
(* ================================================================== *)

Section Diffusion.

#[local] Open Scope nat_scope.

Lemma op_nbits_diffusion n : op_nbits (diffusion n) = n.
Proof. unfold diffusion. cbn. apply op_nbits_Hadamard. Qed.

Lemma reflection_Hadamard n k j :
  k < 2 ^ n -> j < 2 ^ n ->
  op_at (Compose (reflection n) (Hadamard n)) k j =
  (delta k 0 * RtoC (2 * inv_sqrt2 ^ n) - op_at (Hadamard n) k j)%C.
Proof.
  intros Hk Hj. cbn [Compose reflection op_sub op_scale op_zero Identity
                       op_at op_nbits].
  rewrite (Csum_ext _
    (fun l => (zero_projector k l * RtoC 2 * op_at (Hadamard n) l j
               - delta k l * op_at (Hadamard n) l j)%C))
    by (intros; ring).
  rewrite Csum_sub, Csum_delta_l by assumption.
  f_equal.
  rewrite (@Csum_single _ _ 0).
  2: apply pow2_pos.
  2:{ intros l _ Hl. unfold zero_projector.
      destruct (Nat.eqb_spec l 0); [lia|].
      rewrite Bool.andb_false_r. ring. }
  rewrite Hadamard_row0 by assumption.
  unfold zero_projector, delta. rewrite Nat.eqb_refl, Bool.andb_true_r.
  rewrite RtoC_mul. ring.
Qed.

(** The matrix of the diffusion operator: [2/N - 1] on the diagonal and
    [2/N] elsewhere. *)
Lemma diffusion_at n i j :
  i < 2 ^ n -> j < 2 ^ n ->
  op_at (diffusion n) i j = (RtoC (2 / INR (2 ^ n)) - delta i j)%C.
Proof.
  intros Hi Hj. unfold diffusion. cbn [Compose op_at op_nbits].
  rewrite op_nbits_Hadamard.
  rewrite (Csum_ext _
    (fun k => (op_at (Hadamard n) i k * delta k 0 * RtoC (2 * inv_sqrt2 ^ n)
               - op_at (Hadamard n) i k * op_at (Hadamard n) k j)%C)).
  2:{ intros k Hk.
      change (Csum (fun k0 => (op_at (reflection n) k k0
                               * op_at (Hadamard n) k0 j)%C)
                   (2 ^ op_nbits (reflection n)))
        with (op_at (Compose (reflection n) (Hadamard n)) k j).
      rewrite reflection_Hadamard by assumption. ring. }
  rewrite Csum_sub. f_equal.
  - rewrite Csum_mul_r, Csum_delta_r by apply pow2_pos.
    rewrite Hadamard_col0 by assumption.
    rewrite <- RtoC_mul. f_equal.
    replace (inv_sqrt2 ^ n * (2 * inv_sqrt2 ^ n))%R
      with (2 * (inv_sqrt2 ^ n * inv_sqrt2 ^ n))%R by ring.
    rewrite inv_sqrt2_pow_sqr. reflexivity.
  - pose proof (Hadamard_involutive n Hi Hj) as H.
    cbn [Compose op_at] in H. rewrite op_nbits_Hadamard in H. exact H.
Qed.

End Diffusion.

Lemma Apply_diffusion (n : nat) (c : nat -> C) (x : nat) :
  (x < 2 ^ n)%nat ->
  st_at (Apply (diffusion n) (mkState n c)) x
  = (RtoC 2 * mean n c - c x)%C.
Proof.
  intros Hx. cbn [Apply st_at st_nbits]. rewrite op_nbits_diffusion.
  rewrite (Csum_ext _
    (fun k => (RtoC (2 / INR (2 ^ n)) * c k - delta x k * c k)%C))
    by (intros k Hk; rewrite diffusion_at by assumption; ring).
  rewrite Csum_sub, Csum_mul_l, Csum_delta_l by assumption.
  unfold mean. unfold Rdiv. rewrite RtoC_mul. ring.
Qed.

(** C2: the diffusion operator [hn(reflection(hn))], that is
    [H^n (2 P0 - I) H^n], is the inversion about the mean: applied to any
    complex vector [c] of length [2^n], its component [x] is
    [2 * mean c - c x]. *)
Theorem diffusion_inverts_about_mean (n : nat) (c : nat -> C) (x : nat) :
  (x < 2 ^ n)%nat ->
  st_at (Apply (diffusion n) (mkState n c)) x
  = (RtoC 2 * mean n c - c x)%C.
Proof. apply Apply_diffusion. Qed.

Lemma diffusion_inverts_about_mean_witness :
  st_at (Apply (diffusion 2) (mkState 2 (fun k => RtoC (INR k)))) 3
  = (RtoC 2 * mean 2 (fun k => RtoC (INR k)) - RtoC (INR 3))%C.
Proof.
  apply (@diffusion_inverts_about_mean 2 (fun k => RtoC (INR k)) 3).
  simpl; lia.
Defined.

(* ================================================================== *)
(** * Bit strings and basis indices *)
(* ================================================================== *)

Section BitStrings.

#[local] Open Scope nat_scope.

Lemma bits2val_app_last l b : bits2val (l ++ [b]) = 2 * bits2val l + b2n b.
Proof. unfold bits2val. rewrite fold_left_app. reflexivity. Qed.

Lemma length_val2bits n v : length (val2bits n v) = n.
Proof.
  revert v. induction n as [|n IH]; intros v; simpl; [reflexivity|].
  rewrite length_app, IH. simpl. lia.
Qed.

Lemma b2n_odd v : b2n (Nat.odd v) = v mod 2.
Proof.
  unfold b2n. rewrite <- Nat.bit0_mod.
  rewrite Nat.bit0_odd. destruct (Nat.odd v); reflexivity.
Qed.

Lemma bits2val_val2bits n v : bits2val (val2bits n v) = v mod 2 ^ n.
Proof.
  revert v. induction n as [|n IH]; intros v.
  - simpl. reflexivity.
  - cbn [val2bits]. rewrite bits2val_app_last, IH, b2n_odd.
    rewrite Nat.pow_succ_r'.
    rewrite (Nat.Div0.mod_mul_r v 2 (2 ^ n)).
    generalize ((v / 2) mod 2 ^ n) (v mod 2). intros; lia.
Qed.

Lemma bits2val_val2bits_small n v :
  v < 2 ^ n -> bits2val (val2bits n v) = v.
Proof. intros H. rewrite bits2val_val2bits. apply Nat.mod_small, H. Qed.

Lemma bits2val_bound l : bits2val l < 2 ^ length l.
Proof.
  induction l as [|b l IH] using rev_ind; [unfold bits2val; simpl; lia|].
  rewrite bits2val_app_last, length_app. simpl length.
  rewrite Nat.add_1_r, Nat.pow_succ_r'. destruct b; simpl b2n; lia.
Qed.

Lemma val2bits_bits2val l : val2bits (length l) (bits2val l) = l.
Proof.
  induction l as [|b l IH] using rev_ind; [reflexivity|].
  rewrite bits2val_app_last, length_app. simpl length.
  rewrite Nat.add_1_r. cbn [val2bits].
  replace ((2 * bits2val l + b2n b) / 2) with (bits2val l)
    by (destruct b; simpl b2n;
        [ rewrite Nat.add_comm, Nat.mul_comm, Nat.div_add by lia; simpl; lia
        | rewrite Nat.add_0_r, Nat.mul_comm, Nat.div_mul by lia; lia ]).
  rewrite IH. f_equal. f_equal.
  destruct b; simpl b2n.
  - rewrite Nat.add_1_r, Nat.odd_succ, Nat.even_mul. reflexivity.
  - rewrite Nat.add_0_r, Nat.odd_mul. reflexivity.
Qed.

Lemma removelast_val2bits n v :
  removelast (val2bits (S n) v) = val2bits n (v / 2).
Proof. cbn [val2bits]. apply removelast_last. Qed.

Lemma last_val2bits n v : last (val2bits (S n) v) false = Nat.odd v.
Proof. cbn [val2bits]. apply last_last. Qed.

Lemma div2_double_plus q r : r < 2 -> (2 * q + r) / 2 = q.
Proof.
  intros Hr. rewrite Nat.mul_comm.
  destruct (@div_mod_unique_pair 2 q r Hr) as [H _]. exact H.
Qed.

Lemma odd_double_plus q b : Nat.odd (2 * q + b2n b) = b.
Proof.
  destruct b; simpl b2n.
  - rewrite Nat.add_1_r, Nat.odd_succ, Nat.even_mul. reflexivity.
  - rewrite Nat.add_0_r, Nat.odd_mul. reflexivity.
Qed.

Lemma mod2_double_plus q r : r < 2 -> (2 * q + r) mod 2 = r.
Proof.
  intros Hr. rewrite Nat.mul_comm.
  destruct (@div_mod_unique_pair 2 q r Hr) as [_ H]. exact H.
Qed.

Lemma odd_pair q r : Nat.odd (q * 2 + r) = Nat.odd r.
Proof. rewrite Nat.add_comm, (Nat.mul_comm q 2). apply Nat.odd_add_mul_2. Qed.

Lemma b2n_lt2 b : b2n b < 2.
Proof. destruct b; simpl; lia. Qed.

Lemma split_index j : j = 2 * (j / 2) + b2n (Nat.odd j).
Proof. rewrite b2n_odd. apply Nat.div_mod_eq. Qed.

End BitStrings.

(* ================================================================== *)
(** * The oracle *)
(* ================================================================== *)

Section Oracle.

#[local] Open Scope nat_scope.

Variable n : nat.
Variable f : Predicate.

Lemma oracle_image_eq c :
  c < 2 ^ (n + 1) ->
  oracle_image (n + 1) f c
  = 2 * (c / 2) + b2n (xorb (Nat.odd c) (marked n f (c / 2))).
Proof.
  intros Hc. rewrite Nat.add_1_r in *. unfold oracle_image.
  rewrite removelast_val2bits, last_val2bits, bits2val_app_last.
  rewrite bits2val_val2bits_small; [reflexivity|].
  rewrite Nat.pow_succ_r' in Hc.
  apply Nat.Div0.div_lt_upper_bound; lia.
Qed.

Lemma oracle_image_bound c :
  c < 2 ^ (n + 1) -> oracle_image (n + 1) f c < 2 ^ (n + 1).
Proof.
  intros Hc. rewrite oracle_image_eq by assumption.
  rewrite Nat.add_1_r, Nat.pow_succ_r' in *.
  assert (c / 2 < 2 ^ n) by (apply Nat.Div0.div_lt_upper_bound; lia).
  pose proof (b2n_lt2 (xorb (Nat.odd c) (marked n f (c / 2)))). lia.
Qed.

Lemma oracle_image_involutive c :
  c < 2 ^ (n + 1) -> oracle_image (n + 1) f (oracle_image (n + 1) f c) = c.
Proof.
  intros Hc.
  rewrite (oracle_image_eq (oracle_image_bound Hc)).
  rewrite (oracle_image_eq Hc).
  rewrite div2_double_plus by apply b2n_lt2.
  rewrite odd_double_plus.
  rewrite Bool.xorb_assoc, Bool.xorb_nilpotent, Bool.xorb_false_r.
  symmetry. apply split_index.
Qed.

Lemma oracle_image_inj c c' :
  c < 2 ^ (n + 1) -> c' < 2 ^ (n + 1) ->
  oracle_image (n + 1) f c = oracle_image (n + 1) f c' -> c = c'.
Proof.
  intros Hc Hc' H.
  rewrite <- (oracle_image_involutive Hc), <- (oracle_image_involutive Hc').
  rewrite H. reflexivity.
Qed.

Lemma oracle_matrix_at r c :
  op_at (oracle_matrix n f) r c = delta r (oracle_image (n + 1) f c).
Proof. reflexivity. Qed.

Lemma OracleUf_boolean :
  (forall x, length x = n -> f x = 0%Z \/ f x = 1%Z) ->
  OracleUf (n + 1) f = Ok (oracle_matrix n f).
Proof.
  intros Hf. unfold OracleUf.
  replace (predicate_boolean (n + 1) f) with true; [reflexivity|].
  symmetry. unfold predicate_boolean. apply forallb_forall.
  intros x _. rewrite Nat.add_sub.
  destruct (Hf (val2bits n x) (length_val2bits n x)) as [-> | ->];
    reflexivity.
Qed.

(** Applying the oracle permutes the amplitudes. *)
Lemma Apply_oracle psi i :
  i < 2 ^ (n + 1) ->
  st_at (Apply (oracle_matrix n f) psi) i
  = st_at psi (oracle_image (n + 1) f i).
Proof.
  intros Hi. cbn [Apply st_at oracle_matrix op_at op_nbits].
  pose proof (oracle_image_bound Hi) as Hb.
  rewrite (Csum_single _ Hb).
  - rewrite (oracle_image_involutive Hi), Nat.eqb_refl. ring.
  - intros k Hk Hne.
    destruct (Nat.eqb_spec i (oracle_image (n + 1) f k)) as [E|]; [|ring].
    exfalso. apply Hne. rewrite E. symmetry. apply oracle_image_involutive, Hk.
Qed.

Lemma Cconj_delta i j : Cconj (delta i j) = delta i j.
Proof. unfold delta. destruct (i =? j); apply C_eq; simpl; ring. Qed.

Lemma oracle_unitary i j :
  i < 2 ^ (n + 1) -> j < 2 ^ (n + 1) ->
  op_at (Compose (adjoint (oracle_matrix n f)) (oracle_matrix n f)) i j
  = delta i j.
Proof.
  intros Hi Hj. cbn [Compose adjoint op_at op_nbits].
  cbn [oracle_matrix op_nbits].
  rewrite (Csum_ext _
    (fun k => (delta k (oracle_image (n + 1) f i)
               * delta k (oracle_image (n + 1) f j))%C))
    by (intros; rewrite !oracle_matrix_at, Cconj_delta; reflexivity).
  rewrite (Csum_single _ (oracle_image_bound Hi)).
  - unfold delta at 1. rewrite Nat.eqb_refl, Cmul_1_l.
    unfold delta.
    destruct (Nat.eqb_spec (oracle_image (n + 1) f i)
                           (oracle_image (n + 1) f j)) as [E|E];
      destruct (Nat.eqb_spec i j) as [E'|E']; try reflexivity.
    + exfalso. apply E'. eapply oracle_image_inj; eassumption.
    + exfalso. apply E. rewrite E'. reflexivity.
  - intros k _ Hne. unfold delta at 1.
    destruct (Nat.eqb_spec k (oracle_image (n + 1) f i)); [contradiction|].
    ring.
Qed.

Lemma oracle_image_bits x y :
  length x = n ->
  oracle_image (n + 1) f (bits2val (x ++ [y]))
  = bits2val (x ++ [xorb y (Z.eqb (f x) 1)]).
Proof.
  intros Hx.
  assert (Hb : bits2val (x ++ [y]) < 2 ^ (n + 1)).
  { pose proof (bits2val_bound (x ++ [y])) as H.
    rewrite length_app, Hx in H. exact H. }
  rewrite (oracle_image_eq Hb), !bits2val_app_last.
  rewrite div2_double_plus by apply b2n_lt2.
  rewrite odd_double_plus. unfold marked.
  rewrite <- Hx at 1. rewrite val2bits_bits2val. reflexivity.
Qed.

End Oracle.

(** C5: for a predicate [f] with values 0 and 1 on [n]-bit strings, the
    oracle builder returns an operator over [n + 1] lines that sends each
    basis state [|x>|y>] to [|x>|y xor f(x)>]; its matrix is that of a
    permutation of the basis indices, and it is unitary:
    [adjoint U * U] is the identity. *)
Theorem oracle_xor_permutation_unitary (n : nat) (f : Predicate) :
  (forall x, length x = n -> f x = 0%Z \/ f x = 1%Z) ->
  exists U : Operator,
    OracleUf (n + 1) f = Ok U /\
    op_nbits U = (n + 1)%nat /\
    (forall (x : bits) (y : bool) (i : nat),
        length x = n -> (i < 2 ^ (n + 1))%nat ->
        st_at (Apply U (basis_state (x ++ [y]))) i
        = st_at (basis_state (x ++ [xorb y (Z.eqb (f x) 1)])) i) /\
    (exists sigma : nat -> nat,
        (forall c, (c < 2 ^ (n + 1))%nat ->
                   (sigma c < 2 ^ (n + 1))%nat /\ sigma (sigma c) = c) /\
        (forall r c, op_at U r c = delta r (sigma c))) /\
    (forall i j, (i < 2 ^ (n + 1))%nat -> (j < 2 ^ (n + 1))%nat ->
                 op_at (Compose (adjoint U) U) i j = delta i j).
Proof.
  intros Hf. exists (oracle_matrix n f).
  split; [apply OracleUf_boolean, Hf|].
  split; [reflexivity|].
  split; [|split].
  - intros x y i Hx Hi.
    rewrite Apply_oracle by assumption.
    cbn [basis_state st_at].
    rewrite <- (@oracle_image_bits n f x y Hx).
    assert (Hb : (bits2val (x ++ [y]) < 2 ^ (n + 1))%nat).
    { pose proof (bits2val_bound (x ++ [y])) as H.
      rewrite length_app, Hx in H. exact H. }
    unfold delta.
    destruct (Nat.eqb_spec (oracle_image (n + 1) f i) (bits2val (x ++ [y])))
      as [E|E];
      destruct (Nat.eqb_spec i (oracle_image (n + 1) f (bits2val (x ++ [y]))))
      as [E'|E']; try reflexivity; exfalso.
    + apply E'. rewrite <- E. symmetry. apply oracle_image_involutive, Hi.
    + apply E. rewrite E'. apply oracle_image_involutive, Hb.
  - exists (oracle_image (n + 1) f). split.
    + intros c Hc. split;
        [apply oracle_image_bound | apply oracle_image_involutive];
        assumption.
    + intros r c. apply oracle_matrix_at.
  - intros i j. apply oracle_unitary.
Qed.

(* ================================================================== *)
(** * The Grover iterate *)
(* ================================================================== *)

Section Iterate.

#[local] Open Scope nat_scope.

(** Applying a product of operators is applying them one after the other,
    the right factor first. *)
Lemma Apply_Compose A B psi i :
  op_nbits B = op_nbits A ->
  st_at (Apply (Compose A B) psi) i = st_at (Apply A (Apply B psi)) i.
Proof.
  intros HB. cbn [Apply Compose st_at op_at op_nbits]. rewrite HB.
  set (d := 2 ^ op_nbits A).
  rewrite (Csum_ext _
    (fun k => Csum (fun l => (op_at A i l * op_at B l k * st_at psi k)%C) d))
    by (intros; rewrite Csum_mul_r; reflexivity).
  rewrite Csum_swap.
  apply Csum_ext. intros l _.
  rewrite <- Csum_mul_l. apply Csum_ext. intros k _. ring.
Qed.

Lemma op_nbits_inversion n : op_nbits (inversion n) = n + 1.
Proof.
  unfold inversion. cbn [TensorProduct op_nbits Identity].
  rewrite op_nbits_diffusion. reflexivity.
Qed.

Lemma inversion_at n i j :
  op_at (inversion n) i j
  = (op_at (diffusion n) (i / 2) (j / 2) * delta (i mod 2) (j mod 2))%C.
Proof. reflexivity. Qed.

(** The padded diffusion acts on the search lines and leaves the ancilla
    index alone. *)
Lemma Apply_inversion n chi j :
  st_at (Apply (inversion n) chi) j
  = Csum (fun q => (op_at (diffusion n) (j / 2) q
                    * st_at chi (q * 2 + j mod 2))%C) (2 ^ n).
Proof.
  cbn [Apply st_at]. rewrite op_nbits_inversion.
  rewrite Nat.pow_add_r. change (2 ^ 1) with 2.
  rewrite Csum_product. apply Csum_ext. intros q _.
  assert (Hr : j mod 2 < 2) by (apply Nat.mod_upper_bound; lia).
  rewrite (Csum_single _ Hr).
  - rewrite inversion_at.
    destruct (div_mod_unique_pair q Hr) as [-> ->].
    unfold delta. rewrite Nat.eqb_refl. ring.
  - intros r Hr' Hne. rewrite inversion_at.
    destruct (div_mod_unique_pair q Hr') as [_ ->].
    unfold delta. destruct (Nat.eqb_spec (j mod 2) r); [congruence|ring].
Qed.

End Iterate.

(** C4: the Grover iterate is the product [(D (x) I) * Oracle]: the
    diffusion operator on [nbits] lines is padded with the one-line identity
    on the ancilla, which makes an operator on [nbits + 1] lines acting as
    [D] on the search index and as the identity on the ancilla index, and in
    the product the oracle is applied to the state first, the padded
    diffusion second. *)
Theorem grover_is_padded_diffusion_after_oracle (nbits : nat) (u : Operator) :
  op_nbits u = (nbits + 1)%nat ->
  grover nbits u = Compose (TensorProduct (diffusion nbits) (Identity 1)) u /\
  op_nbits (TensorProduct (diffusion nbits) (Identity 1)) = (nbits + 1)%nat /\
  (forall i j,
      op_at (TensorProduct (diffusion nbits) (Identity 1)) i j
      = (op_at (diffusion nbits) (i / 2) (j / 2)
         * op_at (Identity 1) (i mod 2) (j mod 2))%C) /\
  (forall psi i,
      st_at (Apply (grover nbits u) psi) i
      = st_at (Apply (TensorProduct (diffusion nbits) (Identity 1))
                     (Apply u psi)) i).
Proof.
  intros Hu. split; [reflexivity|]. split; [apply op_nbits_inversion|].
  split; [reflexivity|].
  intros psi i. unfold grover. apply Apply_Compose.
  rewrite Hu. symmetry. apply op_nbits_inversion.
Qed.

Lemma grover_is_padded_diffusion_after_oracle_witness :
  grover 2 (oracle_matrix 2 (make_f 2 1))
  = Compose (TensorProduct (diffusion 2) (Identity 1))
            (oracle_matrix 2 (make_f 2 1)).
Proof.
  apply (@grover_is_padded_diffusion_after_oracle
           2 (oracle_matrix 2 (make_f 2 1))).
  reflexivity.
Defined.

(* ================================================================== *)
(** * The state before the loop *)
(* ================================================================== *)

Section Preparation.

#[local] Open Scope nat_scope.

Lemma Hadamard_1_at b c :
  b < 2 -> c < 2 -> op_at (Hadamard 1) b c = op_at Hadamard1 b c.
Proof.
  intros Hb Hc.
  cbn [Hadamard kpow TensorProduct op_at op_nbits Identity Hadamard1].
  change (2 ^ 1) with 2.
  rewrite (Nat.div_small b 2), (Nat.div_small c 2) by assumption.
  rewrite (Nat.mod_small b 2), (Nat.mod_small c 2) by assumption.
  unfold delta. cbn [Nat.eqb]. ring.
Qed.

Lemma minus_state_at y :
  y < 2 -> st_at minus_state y = op_at Hadamard1 y 1.
Proof.
  intros Hy. unfold minus_state. cbn [Apply st_at ones].
  rewrite op_nbits_Hadamard. change (2 ^ 1 - 1) with 1.
  rewrite Csum_delta_r by (simpl; lia).
  apply Hadamard_1_at; lia.
Qed.

Lemma prepared_S n k :
  prepared n (S k) = ApplyToLine (prepared n k) (Hadamard 1) k.
Proof. unfold prepared. rewrite seq_S, fold_left_app. reflexivity. Qed.

Lemma st_nbits_prepared n k : st_nbits (prepared n k) = n + 1.
Proof.
  induction k as [|k IH]; [reflexivity|].
  rewrite prepared_S. cbn [ApplyToLine st_nbits]. exact IH.
Qed.

Lemma prepared_0_at n j :
  st_at (prepared n 0) j = if j =? 1 then C1 else C0.
Proof.
  cbn [prepared seq fold_left TensorState st_at zeros ones st_nbits].
  change (2 ^ 1) with 2. change (2 - 1) with 1. unfold delta.
  destruct (Nat.eqb_spec j 1) as [->|Hne].
  - cbn. ring.
  - destruct (Nat.eqb_spec (j / 2) 0) as [Hq|]; [|ring].
    destruct (Nat.eqb_spec (j mod 2) 1) as [Hr|]; [|ring].
    exfalso. apply Hne. rewrite (Nat.div_mod_eq j 2), Hq, Hr. reflexivity.
Qed.

(** Indices met when a gate is applied to the line of weight [m]. *)
Lemma line_indices m K j :
  0 < m -> j < 2 * m * K ->
  let hi := j / (2 * m) in
  let lo := j mod m in
  hi * (2 * m) + lo < 2 * m * K /\
  hi * (2 * m) + m + lo < 2 * m * K /\
  (hi * (2 * m) + lo) mod (2 * m) = lo /\
  (hi * (2 * m) + m + lo) mod (2 * m) = m + lo.
Proof.
  intros Hm Hj hi lo.
  assert (Hlo : lo < m) by (apply Nat.mod_upper_bound; lia).
  assert (Hhi : hi < K).
  { apply Nat.Div0.div_lt_upper_bound. exact Hj. }
  assert (Hb : hi * (2 * m) + 2 * m <= 2 * m * K) by nia.
  repeat split; try lia.
  - rewrite Nat.add_comm, Nat.Div0.mod_add. apply Nat.mod_small. lia.
  - rewrite <- Nat.add_assoc, Nat.add_comm, Nat.Div0.mod_add.
    apply Nat.mod_small. lia.
Qed.

(** After [k <= n] gates the lines [0 .. k-1] are uniform, the lines
    [k .. n-1] still 0 and the ancilla still 1. *)
Lemma prepared_at n k j :
  k <= n -> j < 2 ^ (n + 1) ->
  st_at (prepared n k) j
  = if j mod 2 ^ (n + 1 - k) =? 1 then RtoC (inv_sqrt2 ^ k) else C0.
Proof.
  revert j. induction k as [|k IH]; intros j Hk Hj.
  - rewrite prepared_0_at, Nat.sub_0_r, Nat.mod_small by assumption.
    reflexivity.
  - rewrite prepared_S. cbn [ApplyToLine st_at].
    rewrite st_nbits_prepared.
    replace (n + 1 - 1 - k) with (n - k) by lia.
    set (m := 2 ^ (n - k)).
    assert (Hm2 : 2 <= m).
    { unfold m. replace (n - k) with (S (n - k - 1)) by lia.
      rewrite Nat.pow_succ_r'. pose proof (pow2_pos (n - k - 1)). lia. }
    assert (E1 : 2 ^ (n + 1 - k) = 2 * m).
    { unfold m. replace (n + 1 - k) with (S (n - k)) by lia.
      apply Nat.pow_succ_r'. }
    assert (E2 : 2 ^ (n + 1) = 2 * m * 2 ^ k).
    { rewrite <- E1, <- Nat.pow_add_r. f_equal. lia. }
    replace (n + 1 - S k) with (n - k) by lia. fold m.
    rewrite E2 in Hj.
    destruct (@line_indices m (2 ^ k) j ltac:(lia) Hj) as (B1 & B2 & M1 & M2).
    rewrite <- E2 in B1, B2.
    rewrite !IH by (assumption || lia).
    rewrite E1, M1, M2.
    assert (Hb : (j / m) mod 2 < 2) by (apply Nat.mod_upper_bound; lia).
    rewrite !Hadamard_1_at by lia.
    rewrite Hadamard1_at, Bool.andb_false_r.
    destruct (Nat.eqb_spec (m + j mod m) 1) as [E|_]; [lia|].
    destruct (j mod m =? 1).
    + rewrite Cmul_0_r, Cadd_0_r, <- RtoC_mul. reflexivity.
    + ring.
Qed.

(** The state before the loop: uniform on the search lines, [H|1>] on the
    ancilla. *)
Lemma initial_state_at n j :
  j < 2 ^ (n + 1) ->
  st_at (initial_state n) j
  = (RtoC (inv_sqrt2 ^ n) * st_at minus_state (j mod 2))%C.
Proof.
  intros Hj.
  change (initial_state n) with (prepared n (n + 1)).
  rewrite Nat.add_1_r at 1. rewrite prepared_S.
  cbn [ApplyToLine st_at]. rewrite st_nbits_prepared.
  replace (n + 1 - 1 - n) with 0 by lia. change (2 ^ 0) with 1.
  change (2 * 1) with 2.
  rewrite Nat.mod_1_r, Nat.div_1_r, !Nat.add_0_r.
  assert (E : 2 ^ (n + 1) = 2 * 2 ^ n)
    by (rewrite Nat.add_1_r; apply Nat.pow_succ_r').
  assert (Hq : j / 2 < 2 ^ n)
    by (apply Nat.Div0.div_lt_upper_bound; lia).
  assert (B1 : j / 2 * 2 < 2 ^ (n + 1)) by lia.
  assert (B2 : j / 2 * 2 + 1 < 2 ^ (n + 1)) by lia.
  rewrite !prepared_at by (assumption || lia).
  replace (n + 1 - n) with 1 by lia. change (2 ^ 1) with 2.
  rewrite Nat.Div0.mod_mul.
  replace ((j / 2 * 2 + 1) mod 2) with 1
    by (rewrite Nat.add_comm, Nat.Div0.mod_add; reflexivity).
  change (0 =? 1) with false. change (1 =? 1) with true.
  assert (Hb : j mod 2 < 2) by (apply Nat.mod_upper_bound; lia).
  rewrite minus_state_at by assumption.
  rewrite !Hadamard_1_at by lia. ring.
Qed.

End Preparation.

(* ================================================================== *)
(** * The amplification loop *)
(* ================================================================== *)

Section Amplification.

#[local] Open Scope nat_scope.

Variable n : nat.
Variable f : Predicate.

Lemma minus_state_flip r :
  r < 2 ->
  st_at minus_state (b2n (xorb (Nat.odd r) true))
  = (RtoC (-1) * st_at minus_state r)%C.
Proof.
  intros Hr. assert (r = 0 \/ r = 1) as [-> | ->] by lia.
  - rewrite !minus_state_at by (simpl; lia). cbn.
    apply C_eq; cbn; ring.
  - rewrite !minus_state_at by (simpl; lia). cbn.
    apply C_eq; cbn; ring.
Qed.

(** The oracle on an index [q * 2 + r]: the search part [q] stays, the
    ancilla amplitude takes the sign of the predicate. *)
Lemma oracle_on_pair q r :
  q < 2 ^ n -> r < 2 ->
  oracle_image (n + 1) f (q * 2 + r) / 2 = q /\
  st_at minus_state (oracle_image (n + 1) f (q * 2 + r) mod 2)
  = (oracle_sign n f q * st_at minus_state r)%C.
Proof.
  intros Hq Hr.
  assert (E : 2 ^ (n + 1) = 2 * 2 ^ n)
    by (rewrite Nat.add_1_r; apply Nat.pow_succ_r').
  assert (Hi : q * 2 + r < 2 ^ (n + 1)) by lia.
  rewrite (@oracle_image_eq n f _ Hi).
  destruct (div_mod_unique_pair q Hr) as [Hd Hm]. rewrite Hd.
  split; [apply div2_double_plus, b2n_lt2|].
  rewrite mod2_double_plus by apply b2n_lt2.
  rewrite odd_pair.
  unfold oracle_sign. destruct (marked n f q).
  - apply minus_state_flip, Hr.
  - rewrite Bool.xorb_false_r, b2n_odd, (Nat.mod_small r 2) by assumption.
    ring.
Qed.

(** One pass of the loop body on a state that factors through the ancilla
    state [H|1>]. *)
Lemma grover_step_factor psi phi :
  (forall j, j < 2 ^ (n + 1) ->
             st_at psi j
             = (st_at phi (j / 2) * st_at minus_state (j mod 2))%C) ->
  forall j, j < 2 ^ (n + 1) ->
    st_at (Apply (grover n (oracle_matrix n f)) psi) j
    = (st_at (search_step n f phi) (j / 2) * st_at minus_state (j mod 2))%C.
Proof.
  intros Hpsi j Hj.
  assert (E : 2 ^ (n + 1) = 2 * 2 ^ n)
    by (rewrite Nat.add_1_r; apply Nat.pow_succ_r').
  unfold grover. rewrite Apply_Compose
    by (rewrite op_nbits_inversion; reflexivity).
  rewrite Apply_inversion.
  unfold search_step. cbn [Apply st_at]. rewrite op_nbits_diffusion.
  rewrite <- Csum_mul_r. apply Csum_ext. intros q Hq.
  assert (Hr : j mod 2 < 2) by (apply Nat.mod_upper_bound; lia).
  assert (Hi : q * 2 + j mod 2 < 2 ^ (n + 1)) by lia.
  pose proof (@Apply_oracle n f psi _ Hi) as HA.
  cbn [Apply st_at] in HA. rewrite HA.
  rewrite Hpsi by (apply oracle_image_bound, Hi).
  destruct (oracle_on_pair Hq Hr) as [-> ->]. ring.
Qed.

Lemma loop_state_factor k j :
  j < 2 ^ (n + 1) ->
  st_at (loop_state n (oracle_matrix n f) k) j
  = (st_at (search_state n f k) (j / 2) * st_at minus_state (j mod 2))%C.
Proof.
  revert j. induction k as [|k IH]; intros j Hj.
  - cbn [loop_state search_state Nat.iter]. apply initial_state_at, Hj.
  - change (loop_state n (oracle_matrix n f) (S k))
      with (Apply (grover n (oracle_matrix n f))
                  (loop_state n (oracle_matrix n f) k)).
    change (search_state n f (S k))
      with (search_step n f (search_state n f k)).
    apply grover_step_factor; assumption.
Qed.

End Amplification.

(** C10: every line, the ancilla included, goes through a Hadamard gate
    before the loop, and each pass applies the oracle then the padded
    diffusion; after any number [k] of passes the state is the tensor
    product of a state of the [n] search lines with the ancilla state
    [H|1>].  The ancilla factor never changes; the sign the oracle produces
    is carried by the search factor. *)
Theorem ancilla_stays_minus (n : nat) (f : Predicate) :
  (forall x, length x = n -> f x = 0%Z \/ f x = 1%Z) ->
  exists u : Operator,
    OracleUf (n + 1) f = Ok u /\
    forall k : nat,
    exists phi : State,
      st_nbits phi = n /\
      forall j, (j < 2 ^ (n + 1))%nat ->
        st_at (amplify (grover n u) (Z.of_nat k) (initial_state n)) j
        = st_at (TensorState phi minus_state) j.
Proof.
  intros Hf. exists (oracle_matrix n f).
  split; [apply OracleUf_boolean, Hf|].
  intros k. exists (mkState n (st_at (search_state n f k))).
  split; [reflexivity|].
  intros j Hj. unfold amplify. rewrite Nat2Z.id.
  apply (@loop_state_factor n f k j Hj).
Qed.

Lemma ancilla_stays_minus_witness :
  exists u : Operator,
    OracleUf (2 + 1) all_ones = Ok u /\
    forall k : nat,
    exists phi : State,
      st_nbits phi = 2%nat /\
      forall j, (j < 2 ^ (2 + 1))%nat ->
        st_at (amplify (grover 2 u) (Z.of_nat k) (initial_state 2)) j
        = st_at (TensorState phi minus_state) j.
Proof.
  apply (@ancilla_stays_minus 2 all_ones).
  intros x _. unfold all_ones.
  destruct (forallb (fun b : bool => b) x); [right|left]; reflexivity.
Defined.

Lemma oracle_xor_permutation_unitary_witness :
  exists U : Operator,
    OracleUf (2 + 1) all_ones = Ok U /\
    op_nbits U = (2 + 1)%nat /\
    (forall (x : bits) (y : bool) (i : nat),
        length x = 2%nat -> (i < 2 ^ (2 + 1))%nat ->
        st_at (Apply U (basis_state (x ++ [y]))) i
        = st_at (basis_state
                   (x ++ [xorb y (Z.eqb (all_ones x) 1)])) i) /\
    (exists sigma : nat -> nat,
        (forall c, (c < 2 ^ (2 + 1))%nat ->
                   (sigma c < 2 ^ (2 + 1))%nat /\ sigma (sigma c) = c) /\
        (forall r c, op_at U r c = delta r (sigma c))) /\
    (forall i j, (i < 2 ^ (2 + 1))%nat -> (j < 2 ^ (2 + 1))%nat ->
                 op_at (Compose (adjoint U) U) i j = delta i j).
Proof.
  apply (@oracle_xor_permutation_unitary 2 all_ones).
  intros x _. unfold all_ones.
  destruct (forallb (fun b : bool => b) x); [right|left]; reflexivity.
Defined.

(* ================================================================== *)
(** * The predicate of [make_f] *)
(* ================================================================== *)

Section MakeF.

#[local] Open Scope nat_scope.

Lemma nth_array_set (A : Type) (l : list A) i v j d :
  nth j (array_set l i v) d
  = if (j =? i) && (i <? length l) then v else nth j l d.
Proof.
  revert i j. induction l as [|h t IH]; intros i j.
  - simpl. rewrite Bool.andb_false_r. reflexivity.
  - destruct i as [|i]; destruct j as [|j]; simpl; try reflexivity.
    rewrite IH. reflexivity.
Qed.

Lemma make_f_at d w bs :
  make_f d w bs
  = if (bits2val bs =? w) && (w <? 2 ^ d) then 1%Z else 0%Z.
Proof.
  unfold make_f. rewrite nth_array_set, repeat_length, nth_repeat.
  reflexivity.
Qed.

Lemma make_f_boolean d w bs : make_f d w bs = 0%Z \/ make_f d w bs = 1%Z.
Proof.
  rewrite make_f_at.
  destruct ((bits2val bs =? w) && (w <? 2 ^ d)); [right|left]; reflexivity.
Qed.

Lemma marked_make_f n w x :
  w < 2 ^ n -> x < 2 ^ n -> marked n (make_f n w) x = (x =? w).
Proof.
  intros Hw Hx. unfold marked. rewrite make_f_at.
  rewrite bits2val_val2bits_small by assumption.
  apply Nat.ltb_lt in Hw. rewrite Hw, Bool.andb_true_r.
  destruct (x =? w); reflexivity.
Qed.

Lemma OracleUf_make_f n w :
  OracleUf (n + 1) (make_f n w) = Ok (oracle_matrix n (make_f n w)).
Proof. apply OracleUf_boolean. intros x _. apply make_f_boolean. Qed.

End MakeF.

(* ================================================================== *)
(** * A single marked string: two amplitudes *)
(* ================================================================== *)

Section TwoLevel.

#[local] Open Scope nat_scope.

Lemma Csum_two_level w N u v :
  w < N ->
  Csum (fun q => if q =? w then u else v) N
  = (u + RtoC (INR N - 1) * v)%C.
Proof.
  intros Hw.
  rewrite (Csum_ext _ (fun q => (v + delta w q * (u - v))%C)).
  - rewrite Csum_add, Csum_const.
    rewrite (Csum_delta_l (fun _ => (u - v)%C) Hw).
    rewrite RtoC_sub. fold C1. ring.
  - intros q _. unfold delta. rewrite (Nat.eqb_sym w q).
    destruct (q =? w); ring.
Qed.

Lemma search_step_ext n f phi phi' x :
  (forall q, q < 2 ^ n -> st_at phi q = st_at phi' q) ->
  st_at (search_step n f phi) x = st_at (search_step n f phi') x.
Proof.
  intros H. unfold search_step. cbn [Apply st_at].
  apply Csum_ext. intros q Hq. rewrite op_nbits_diffusion in Hq.
  rewrite H by assumption. reflexivity.
Qed.

Lemma INR_pow2_pos n : (0 < INR (2 ^ n))%R.
Proof. apply lt_0_INR, pow2_pos. Qed.

Lemma search_step_two_level n w k x :
  w < 2 ^ n -> x < 2 ^ n ->
  st_at (search_step n (make_f n w) (two_level n w (grover_amps n k))) x
  = st_at (two_level n w (grover_amps n (S k))) x.
Proof.
  intros Hw Hx. unfold search_step. rewrite Apply_diffusion by assumption.
  set (a := fst (grover_amps n k)). set (b := snd (grover_amps n k)).
  unfold mean.
  rewrite (Csum_ext _ (fun q => if q =? w then RtoC (- a) else RtoC b)).
  2:{ intros q Hq. unfold oracle_sign. cbn [two_level st_at].
      rewrite marked_make_f by assumption. fold a b.
      destruct (q =? w); rewrite <- ?RtoC_mul; [f_equal; ring|].
      apply Cmul_1_l. }
  rewrite Csum_two_level by assumption.
  unfold oracle_sign. rewrite marked_make_f by assumption.
  cbn [two_level st_at grover_amps fst snd]. fold a b.
  pose proof (INR_pow2_pos n) as HN.
  destruct (x =? w); apply C_eq; cbn; field; lra.
Qed.

Lemma search_state_two_level n w k x :
  w < 2 ^ n -> x < 2 ^ n ->
  st_at (search_state n (make_f n w) k) x
  = st_at (two_level n w (grover_amps n k)) x.
Proof.
  intros Hw. revert x. induction k as [|k IH]; intros x Hx.
  - cbn. destruct (x =? w); reflexivity.
  - rewrite <- search_step_two_level by assumption.
    change (search_state n (make_f n w) (S k))
      with (search_step n (make_f n w) (search_state n (make_f n w) k)).
    apply search_step_ext. exact IH.
Qed.

End TwoLevel.

(* ================================================================== *)
(** * The rotation angle and the schedule *)
(* ================================================================== *)

#[local] Open Scope R_scope.

Lemma INR_fact_const (k : nat) (z : Z) :
  Z.of_nat (Factorial.fact k) = z -> INR (Factorial.fact k) = IZR z.
Proof. intros <-. apply INR_IZR_INZ. Qed.

Lemma sin_cubic_lower a : 0 <= a <= 1 -> a - a ^ 3 / 6 <= sin a.
Proof.
  intros Ha.
  assert (H : a <= PI) by (pose proof PI2_3_2; lra).
  destruct (SIN a (proj1 Ha) H) as [H1 _].
  unfold sin_lb, sin_approx in H1. cbn [sum_f_R0] in H1.
  unfold sin_term in H1.
  rewrite (@INR_fact_const (2*0+1) 1), (@INR_fact_const (2*1+1) 6),
    (@INR_fact_const (2*2+1) 120), (@INR_fact_const (2*3+1) 5040) in H1
    by reflexivity.
  cbn [Nat.mul Nat.add] in H1.
  assert (H5 : 0 <= a ^ 5) by (apply pow_le; lra).
  assert (H2 : a ^ 7 = a ^ 5 * (a * a)) by ring.
  assert (H3 : a * a <= 1) by nra.
  assert (H4 : a ^ 5 * (a * a) <= a ^ 5) by nra.
  replace (a ^ 1) with a in H1 by ring.
  lra.
Qed.

Section GroverAngle.

Variable N : R.
Hypothesis HN : 1 < N.

Lemma sqrt_size_pos : 0 < sqrt N.
Proof. apply sqrt_lt_R0; lra. Qed.

Lemma inv_sqrt_pos : 0 < inv_sqrt N.
Proof. unfold inv_sqrt. apply Rinv_0_lt_compat, sqrt_size_pos. Qed.

Lemma inv_sqrt_sqr : inv_sqrt N * inv_sqrt N = / N.
Proof.
  unfold inv_sqrt. rewrite <- Rinv_mult, sqrt_sqrt by lra. reflexivity.
Qed.

Lemma sqrt_inv_sqrt : sqrt N * inv_sqrt N = 1.
Proof. unfold inv_sqrt. apply Rinv_r. pose proof sqrt_size_pos; lra. Qed.

Lemma inv_sqrt_lt_1 : inv_sqrt N < 1.
Proof.
  assert (H : 1 < sqrt N) by (rewrite <- sqrt_1; apply sqrt_lt_1; lra).
  pose proof sqrt_inv_sqrt. pose proof inv_sqrt_pos. nra.
Qed.

Lemma root_pred_sqr : root_pred N * root_pred N = N - 1.
Proof. unfold root_pred. apply sqrt_sqrt. lra. Qed.

Lemma root_pred_pos : 0 < root_pred N.
Proof. unfold root_pred. apply sqrt_lt_R0; lra. Qed.

Lemma root_pred_inv_sqrt_sqr :
  root_pred N * root_pred N * (inv_sqrt N * inv_sqrt N)
  = 1 - inv_sqrt N * inv_sqrt N.
Proof. rewrite root_pred_sqr, inv_sqrt_sqr. field. lra. Qed.

Lemma sin_grover_angle : sin (grover_angle N) = inv_sqrt N.
Proof.
  apply sin_asin. pose proof inv_sqrt_pos; pose proof inv_sqrt_lt_1; lra.
Qed.

Lemma cos_grover_angle : cos (grover_angle N) = root_pred N * inv_sqrt N.
Proof.
  unfold grover_angle.
  rewrite cos_asin by (pose proof inv_sqrt_pos; pose proof inv_sqrt_lt_1; lra).
  apply sqrt_lem_1.
  - unfold Rsqr. pose proof inv_sqrt_pos; pose proof inv_sqrt_lt_1. nra.
  - pose proof inv_sqrt_pos; pose proof root_pred_pos. nra.
  - unfold Rsqr. pose proof root_pred_inv_sqrt_sqr. nra.
Qed.

Lemma grover_angle_range : 0 < grover_angle N <= PI / 2.
Proof.
  split; [|apply asin_bound].
  destruct (Rlt_le_dec 0 (grover_angle N)) as [H|H]; [exact H|exfalso].
  assert (Hs : sin (grover_angle N) <= 0).
  { destruct (Req_dec (grover_angle N) 0) as [->|Hne]; [rewrite sin_0; lra|].
    pose proof (asin_bound (inv_sqrt N)) as [Hl _]. fold (grover_angle N) in Hl.
    apply Rlt_le. apply sin_lt_0_var; pose proof PI_RGT_0; lra. }
  rewrite sin_grover_angle in Hs. pose proof inv_sqrt_pos. lra.
Qed.

(** Rotation by twice the angle. *)
Lemma rotation_step a b phi :
  a = sin phi -> b * root_pred N = cos phi ->
  let u := (- a + (N - 1) * b) / N in
  2 * u + a = sin (phi + 2 * grover_angle N) /\
  (2 * u - b) * root_pred N = cos (phi + 2 * grover_angle N).
Proof.
  intros Ha Hb u.
  rewrite sin_plus, cos_plus, cos_2a_sin, sin_2a.
  rewrite sin_grover_angle, cos_grover_angle, <- Ha, <- Hb.
  pose proof root_pred_inv_sqrt_sqr as E.
  assert (Hu : u = (- a + root_pred N * root_pred N * b)
                   * (inv_sqrt N * inv_sqrt N)).
  { unfold u. rewrite inv_sqrt_sqr, root_pred_sqr. reflexivity. }
  rewrite Hu. clear Hu u.
  set (s := inv_sqrt N) in *. set (t := root_pred N) in *.
  split.
  - ring.
  - replace ((2 * ((- a + t * t * b) * (s * s)) - b) * t)
      with (- 2 * a * t * (s * s) + 2 * b * t * (t * t * (s * s)) - b * t)
      by ring.
    rewrite E. ring.
Qed.

End GroverAngle.

Lemma PI_bounds : 314 / 100 < PI < 315 / 100.
Proof.
  pose proof (PI_2_3_7_ineq 1) as [Hl Hu].
  unfold PI_2_3_7_tg, tg_alt, Ratan_seq in Hl, Hu.
  cbn [sum_f_R0 Nat.mul Nat.add] in Hl, Hu.
  cbn [pow INR] in Hl, Hu.
  split; lra.
Qed.

Section Schedule.

Variable N : R.
Hypothesis HN : 4 <= N.

Lemma size_gt_1 : 1 < N.
Proof. lra. Qed.

Lemma inv_sqrt_le_half : inv_sqrt N <= / 2.
Proof.
  unfold inv_sqrt. apply Rinv_le_contravar; [lra|].
  replace 2 with (sqrt 4).
  - apply sqrt_le_1; lra.
  - replace 4 with (2 * 2) by ring. apply sqrt_square. lra.
Qed.

Lemma grover_angle_le_PI6 : grover_angle N <= PI / 6.
Proof.
  destruct (Rle_lt_dec (grover_angle N) (PI / 6)) as [H|H]; [exact H|exfalso].
  pose proof (grover_angle_range size_gt_1) as [H0 H1].
  assert (Hs : sin (PI / 6) < sin (grover_angle N)).
  { apply sin_increasing_1; try assumption; pose proof PI_RGT_0; lra. }
  rewrite sin_PI6, (sin_grover_angle size_gt_1) in Hs.
  pose proof inv_sqrt_le_half. lra.
Qed.

Lemma grover_angle_bounds :
  inv_sqrt N <= grover_angle N <= 27 / 25 * inv_sqrt N.
Proof.
  pose proof (grover_angle_range size_gt_1) as [H0 H1].
  pose proof (sin_grover_angle size_gt_1) as Hs.
  split.
  - rewrite <- Hs. apply Rlt_le, sin_lt_x, H0.
  - pose proof grover_angle_le_PI6 as H6. pose proof PI_4 as H4.
    assert (Ht : grover_angle N <= 2 / 3) by lra.
    pose proof (@sin_cubic_lower (grover_angle N) ltac:(lra)) as Hc.
    rewrite Hs in Hc.
    assert (grover_angle N * grover_angle N <= 4 / 9) by nra.
    assert (grover_angle N ^ 3
            = grover_angle N * (grover_angle N * grover_angle N)) by ring.
    nra.
Qed.

(** The rotation reached after [r = floor (pi/4 * sqrt N)] iterations. *)
Lemma schedule_angle (r : R) :
  r <= PI / 4 * sqrt N < r + 1 -> 0 <= r ->
  PI / 4 < (2 * r + 1) * grover_angle N < 3 * (PI / 4).
Proof.
  intros [Hr1 Hr2] Hr0.
  pose proof grover_angle_bounds as [Hl Hu].
  pose proof (sqrt_inv_sqrt size_gt_1) as Hq.
  pose proof (inv_sqrt_pos size_gt_1) as Hs0.
  pose proof inv_sqrt_le_half as Hs2.
  pose proof PI2_3_2 as Hpi. pose proof PI_4 as Hpi4.
  assert (E : PI / 4 * sqrt N * inv_sqrt N = PI / 4)
    by (rewrite Rmult_assoc, Hq; ring).
  split.
  - assert ((2 * r + 1) * inv_sqrt N <= (2 * r + 1) * grover_angle N) by nra.
    assert (2 * (PI / 4 * sqrt N) * inv_sqrt N - inv_sqrt N
            < (2 * r + 1) * inv_sqrt N) by nra.
    nra.
  - assert ((2 * r + 1) * grover_angle N
            <= (2 * r + 1) * (27 / 25 * inv_sqrt N)) by nra.
    assert ((2 * r + 1) * inv_sqrt N
            <= 2 * (PI / 4 * sqrt N * inv_sqrt N) + inv_sqrt N) by nra.
    nra.
Qed.

(** Any odd multiple [m] of the angle with [N <= m^2 <= 4 N] lies within a
    quarter turn around [pi/2]. *)
Lemma square_window_angle (m : R) :
  0 <= m -> N <= m * m <= 4 * N ->
  PI / 4 < m * grover_angle N < 3 * (PI / 4).
Proof.
  intros Hm [Hlo Hhi].
  pose proof grover_angle_bounds as [Hl Hu].
  pose proof (sqrt_inv_sqrt size_gt_1) as Hq.
  pose proof (inv_sqrt_pos size_gt_1) as Hs0.
  pose proof (inv_sqrt_sqr size_gt_1) as Hss.
  pose proof PI_bounds as Hpi.
  set (s := inv_sqrt N) in *. set (th := grover_angle N) in *.
  assert (HNi : 0 < / N) by (apply Rinv_0_lt_compat; lra).
  assert (E : N * / N = 1) by (apply Rinv_r; lra).
  pose proof (Rmult_le_compat_r (/ N) _ _ (Rlt_le _ _ HNi) Hlo) as Hlo'.
  pose proof (Rmult_le_compat_r (/ N) _ _ (Rlt_le _ _ HNi) Hhi) as Hhi'.
  assert (H1 : 1 <= (m * s) * (m * s)).
  { replace (m * s * (m * s)) with (m * m * (s * s)) by ring.
    rewrite Hss. lra. }
  assert (H2 : (m * s) * (m * s) <= 4).
  { replace (m * s * (m * s)) with (m * m * (s * s)) by ring.
    rewrite Hss. lra. }
  assert (H0 : 0 <= m * s) by (apply Rmult_le_pos; lra).
  assert (Hms1 : 1 <= m * s) by nra.
  assert (Hms2 : m * s <= 2) by nra.
  split.
  - assert (m * s <= m * th) by (apply Rmult_le_compat_l; lra). lra.
  - assert (m * th <= m * (27 / 25 * s))
      by (apply Rmult_le_compat_l; lra).
    lra.
Qed.

End Schedule.

Lemma sin_above_quarter phi :
  PI / 4 < phi < 3 * (PI / 4) -> / sqrt 2 < sin phi.
Proof.
  intros [H1 H2]. pose proof PI_RGT_0 as Hpi.
  replace (/ sqrt 2) with (sin (PI / 4)) by (rewrite sin_PI4; lra).
  destruct (Rle_lt_dec phi (PI / 2)) as [H|H].
  - apply sin_increasing_1; lra.
  - rewrite <- (sin_PI_x phi). apply sin_increasing_1; lra.
Qed.

(* ================================================================== *)
(** * Closed form of the two amplitudes *)
(* ================================================================== *)

Section ClosedForm.

Lemma sqrt_size_pow n : sqrt (INR (2 ^ n)) = sqrt 2 ^ n.
Proof.
  induction n as [|n IH].
  - simpl. apply sqrt_1.
  - rewrite Nat.pow_succ_r', mult_INR, sqrt_mult by apply pos_INR.
    rewrite IH. simpl. reflexivity.
Qed.

Lemma inv_sqrt2_pow n : inv_sqrt2 ^ n = inv_sqrt (INR (2 ^ n)).
Proof.
  unfold inv_sqrt, inv_sqrt2. rewrite sqrt_size_pow, pow_inv. reflexivity.
Qed.

Lemma size_ge_2 n : (1 <= n)%nat -> 2 <= INR (2 ^ n).
Proof.
  intros Hn. change 2 with (INR 2). apply le_INR.
  destruct n as [|n]; [lia|].
  rewrite Nat.pow_succ_r'. pose proof (pow2_pos n). lia.
Qed.

Lemma size_ge_4 n : (2 <= n)%nat -> 4 <= INR (2 ^ n).
Proof.
  intros Hn. replace 4 with (INR 4) by (simpl; lra). apply le_INR.
  destruct n as [|[|n]]; try lia.
  rewrite !Nat.pow_succ_r'. pose proof (pow2_pos n). lia.
Qed.

(** After [k] iterations the marked amplitude is [sin ((2k+1) theta)] and
    the others are [cos ((2k+1) theta) / sqrt (N-1)]. *)
Lemma grover_amps_closed_form n k :
  (1 <= n)%nat ->
  fst (grover_amps n k)
  = sin ((2 * INR k + 1) * grover_angle (INR (2 ^ n))) /\
  snd (grover_amps n k) * root_pred (INR (2 ^ n))
  = cos ((2 * INR k + 1) * grover_angle (INR (2 ^ n))).
Proof.
  intros Hn. pose proof (size_ge_2 Hn) as H2.
  assert (HN : 1 < INR (2 ^ n)) by lra.
  induction k as [|k [IHa IHb]].
  - cbn [grover_amps fst snd INR]. rewrite Rmult_0_r, Rplus_0_l, Rmult_1_l.
    rewrite inv_sqrt2_pow, (sin_grover_angle HN), (cos_grover_angle HN).
    split; [reflexivity|ring].
  - cbn [grover_amps fst snd].
    replace ((2 * INR (S k) + 1) * grover_angle (INR (2 ^ n)))
      with ((2 * INR k + 1) * grover_angle (INR (2 ^ n))
            + 2 * grover_angle (INR (2 ^ n)))
      by (rewrite S_INR; ring).
    apply (rotation_step HN); assumption.
Qed.

Lemma py_int_nonneg x : 0 <= x -> py_int x = Zfloor x.
Proof. intros H. unfold py_int. destruct (Rle_dec 0 x); [reflexivity|lra]. Qed.

Lemma schedule_nonneg n : 0 <= PI / 4 * sqrt (INR (2 ^ n)).
Proof.
  apply Rmult_le_pos; [pose proof PI_RGT_0; lra|apply sqrt_pos].
Qed.

(** The exact count is the integer part of [pi/4 * sqrt N]. *)
Lemma iterations_real_floor n :
  iterations_real n = Zfloor (PI / 4 * sqrt (INR (2 ^ n))) /\
  (0 <= iterations_real n)%Z /\
  IZR (iterations_real n) <= PI / 4 * sqrt (INR (2 ^ n))
  < IZR (iterations_real n) + 1.
Proof.
  unfold iterations_real. rewrite py_int_nonneg by apply schedule_nonneg.
  split; [reflexivity|]. split; [|apply Zfloor_bound].
  apply Zfloor_lub. apply schedule_nonneg.
Qed.

Lemma iterations_real_eq n (r : Z) :
  IZR r <= PI / 4 * sqrt (INR (2 ^ n)) < IZR r + 1 -> iterations_real n = r.
Proof.
  intros H. destruct (iterations_real_floor n) as [-> _]. apply Zfloor_eq, H.
Qed.

Lemma INR_iterations_real n :
  INR (Z.to_nat (iterations_real n)) = IZR (iterations_real n).
Proof.
  destruct (iterations_real_floor n) as (_ & H0 & _).
  rewrite INR_IZR_INZ, Z2Nat.id by assumption. reflexivity.
Qed.

(** With four or more candidates, a number [k] of passes that brings the
    rotation within a quarter turn around [pi/2] leaves the marked amplitude
    above [1 / sqrt 2] and every other amplitude below it. *)
Lemma amps_dominate_in_window n k :
  (2 <= n)%nat ->
  PI / 4 < (2 * INR k + 1) * grover_angle (INR (2 ^ n)) < 3 * (PI / 4) ->
  let ab := grover_amps n k in
  / 2 < fst ab * fst ab /\ snd ab * snd ab < / 6.
Proof.
  intros Hn Hphi ab. pose proof (size_ge_4 Hn) as H4.
  destruct (@grover_amps_closed_form n k ltac:(lia)) as [Ha Hb].
  fold ab in Ha, Hb.
  set (phi := (2 * INR k + 1) * grover_angle (INR (2 ^ n))) in *.
  pose proof (sin_above_quarter Hphi) as Hs.
  pose proof (sin2_cos2 phi) as Hsc. unfold Rsqr in Hsc.
  pose proof inv_sqrt2_pos as Hp. pose proof inv_sqrt2_sqr as Hq.
  fold inv_sqrt2 in Hs.
  assert (Ha2 : / 2 < fst ab * fst ab) by (rewrite Ha; nra).
  split; [exact Ha2|].
  assert (HN : 1 < INR (2 ^ n)) by lra.
  pose proof (root_pred_sqr HN) as Ht.
  assert (Hc : snd ab * snd ab * (INR (2 ^ n) - 1) = cos phi * cos phi).
  { rewrite <- Hb, <- Ht. ring. }
  rewrite Ha in Ha2.
  assert (0 <= snd ab * snd ab) by nra.
  nra.
Qed.

Lemma amps_sqr_le_1 n k :
  (1 <= n)%nat -> fst (grover_amps n k) * fst (grover_amps n k) <= 1.
Proof.
  intros Hn. destruct (@grover_amps_closed_form n k Hn) as [Hs _].
  rewrite Hs.
  pose proof (SIN_bound ((2 * INR k + 1) * grover_angle (INR (2 ^ n)))).
  nra.
Qed.

End ClosedForm.

(* ================================================================== *)
(** * The most probable basis string *)
(* ================================================================== *)

Section Outcome.

Lemma fold_maxprob_spec psi M :
  let r := fold_left (maxprob_step psi) (seq 0 M) (0%nat, 0) in
  (forall j, (j < M)%nat -> prob psi j <= snd r) /\
  ((snd r = 0 /\ fst r = 0%nat) \/
   ((fst r < M)%nat /\ snd r = prob psi (fst r) /\ 0 < snd r /\
    forall j, (j < fst r)%nat -> prob psi j < snd r)).
Proof.
  induction M as [|M IH].
  - cbn. split; [intros; lia|]. left. split; reflexivity.
  - rewrite seq_S, fold_left_app. cbn [fold_left Nat.add].
    set (r := fold_left (maxprob_step psi) (seq 0 M) (0%nat, 0)) in *.
    cbv zeta in IH. destruct IH as [Hmax Hfirst].
    cbv zeta. unfold maxprob_step.
    destruct (Rlt_dec (snd r) (prob psi M)) as [Hlt|Hge]; cbn [fst snd].
    + split.
      * intros j Hj. destruct (Nat.eq_dec j M) as [->|Hne]; [lra|].
        specialize (Hmax j ltac:(lia)). lra.
      * right. repeat split; try lia.
        -- destruct Hfirst as [[H0 _]|(_ & _ & H0 & _)]; lra.
        -- intros j Hj. specialize (Hmax j Hj). lra.
    + split.
      * intros j Hj. destruct (Nat.eq_dec j M) as [->|Hne]; [lra|].
        apply Hmax. lia.
      * destruct Hfirst as [H0|(H1 & H2 & H3 & H4)]; [left; exact H0|].
        right. repeat split; try assumption. lia.
Qed.

(** The scan returns the first index of largest probability. *)
Lemma maxprob_index_first psi i P :
  (i < 2 ^ st_nbits psi)%nat ->
  prob psi i = P -> 0 < P ->
  (forall j, (j < 2 ^ st_nbits psi)%nat -> prob psi j <= P) ->
  (forall j, (j < i)%nat -> prob psi j < P) ->
  maxprob_index psi = (i, P).
Proof.
  intros Hi HP H0 Hall Hbefore. unfold maxprob_index.
  pose proof (fold_maxprob_spec psi (2 ^ st_nbits psi)) as H.
  cbv zeta in H.
  destruct (fold_left (maxprob_step psi) (seq 0 (2 ^ st_nbits psi))
                      (0%nat, 0)) as [i' P'].
  cbn [fst snd] in H. destruct H as [Hmax [[H1 _]|(Hi' & HP' & _ & Hb')]].
  - specialize (Hmax i Hi). lra.
  - assert (E : P' = P).
    { specialize (Hmax i Hi). specialize (Hall i' Hi'). lra. }
    subst P'.
    assert (Ei : i' = i); [|rewrite E, Ei; reflexivity].
    destruct (Nat.lt_trichotomy i' i) as [Hlt|[Heq|Hgt]]; [|exact Heq|].
    + specialize (Hbefore i' Hlt). lra.
    + specialize (Hb' i Hgt). lra.
Qed.

Lemma st_nbits_loop_state n u k : st_nbits (loop_state n u k) = (n + 1)%nat.
Proof.
  induction k as [|k IH].
  - apply st_nbits_prepared.
  - exact IH.
Qed.

Lemma Cnorm2_with_ancilla x r :
  (r < 2)%nat ->
  Cnorm2 (RtoC x * st_at minus_state r)%C = x * x / 2.
Proof.
  intros Hr. rewrite minus_state_at by assumption. rewrite Hadamard1_at.
  pose proof inv_sqrt2_sqr as Hs.
  destruct ((r =? 1)%nat && (1 =? 1)%nat); unfold Cnorm2; cbn; nra.
Qed.

(** Probabilities of the basis strings after [k] passes, a single string
    [w] marked. *)
Lemma loop_state_prob n w k j :
  (w < 2 ^ n)%nat -> (j < 2 ^ (n + 1))%nat ->
  prob (loop_state n (oracle_matrix n (make_f n w)) k) j
  = if (j / 2 =? w)%nat
    then fst (grover_amps n k) * fst (grover_amps n k) / 2
    else snd (grover_amps n k) * snd (grover_amps n k) / 2.
Proof.
  intros Hw Hj. unfold prob.
  rewrite loop_state_factor by assumption.
  assert (Hq : (j / 2 < 2 ^ n)%nat).
  { apply Nat.Div0.div_lt_upper_bound.
    rewrite Nat.add_1_r, Nat.pow_succ_r' in Hj. exact Hj. }
  rewrite search_state_two_level by assumption.
  cbn [two_level st_at].
  rewrite Cnorm2_with_ancilla by (apply Nat.mod_upper_bound; lia).
  destruct (j / 2 =? w)%nat; reflexivity.
Qed.

(** When the marked amplitude is the larger one, the scan stops on the
    marked string with ancilla 0. *)
Lemma maxprob_index_marked n w k :
  (w < 2 ^ n)%nat ->
  snd (grover_amps n k) * snd (grover_amps n k)
  < fst (grover_amps n k) * fst (grover_amps n k) ->
  maxprob_index (loop_state n (oracle_matrix n (make_f n w)) k)
  = ((2 * w)%nat, fst (grover_amps n k) * fst (grover_amps n k) / 2).
Proof.
  intros Hw Hab.
  assert (E : (2 ^ (n + 1) = 2 * 2 ^ n)%nat)
    by (rewrite Nat.add_1_r; apply Nat.pow_succ_r').
  assert (Hd : ((2 * w) / 2 = w)%nat)
    by (rewrite Nat.mul_comm; apply Nat.div_mul; lia).
  apply maxprob_index_first.
  - rewrite st_nbits_loop_state. lia.
  - rewrite loop_state_prob by lia. rewrite Hd, Nat.eqb_refl. reflexivity.
  - nra.
  - intros j Hj. rewrite st_nbits_loop_state in Hj.
    rewrite loop_state_prob by assumption.
    destruct (j / 2 =? w)%nat; lra.
  - intros j Hj. rewrite loop_state_prob by lia.
    destruct (Nat.eqb_spec (j / 2) w) as [Eq|_]; [|lra].
    exfalso. pose proof (Nat.Div0.mul_div_le j 2). lia.
Qed.


(** What [run_experiment] does once the oracle is built and the count
    computed. *)
Lemma run_experiment_unfold n w r :
  iterations n = Ok r ->
  run_experiment n w
  = select_outcome (make_f n w)
      (loop_state n (oracle_matrix n (make_f n w)) (Z.to_nat r)).
Proof.
  intros Hr. unfold run_experiment. rewrite OracleUf_make_f. cbn [bind].
  rewrite Hr. reflexivity.
Qed.


Lemma passes_Ok n r : iterations n = Ok r -> passes n = r.
Proof. intros H. unfold passes. rewrite H. reflexivity. Qed.

Lemma select_outcome_index f psi i P :
  maxprob_index psi = (i, P) ->
  select_outcome f psi
  = if negb (Z.eqb (f (removelast (val2bits (st_nbits psi) i))) 1)
    then Raise AssertionError
    else Ok (val2bits (st_nbits psi) i, P).
Proof.
  intros H. unfold select_outcome, maxprob. rewrite H. reflexivity.
Qed.

End Outcome.

(* ================================================================== *)
(** * The iteration count on the sizes the driver runs *)
(* ================================================================== *)

Lemma sqrt2_bounds : 1414 / 1000 < sqrt 2 < 1415 / 1000.
Proof.
  assert (H0 : 0 < sqrt 2) by (apply sqrt_lt_R0; lra).
  assert (H2 : sqrt 2 * sqrt 2 = 2) by (apply sqrt_sqrt; lra).
  split; nra.
Qed.

Lemma sqrt_size_even k : sqrt (INR (2 ^ (2 * k))) = 2 ^ k.
Proof.
  rewrite sqrt_size_pow, pow_mult. f_equal. simpl. rewrite Rmult_1_r.
  apply sqrt_sqrt. lra.
Qed.

Lemma sqrt_size_odd k : sqrt (INR (2 ^ (2 * k + 1))) = 2 ^ k * sqrt 2.
Proof.
  rewrite sqrt_size_pow, pow_add, pow_mult. simpl pow at 3. f_equal.
  - f_equal. simpl. rewrite Rmult_1_r. apply sqrt_sqrt. lra.
  - simpl. ring.
Qed.

Lemma sqrt_size_values :
  sqrt (INR (2 ^ 0)) = 1 /\ sqrt (INR (2 ^ 1)) = sqrt 2 /\
  sqrt (INR (2 ^ 2)) = 2 /\ sqrt (INR (2 ^ 3)) = 2 * sqrt 2 /\
  sqrt (INR (2 ^ 4)) = 4 /\ sqrt (INR (2 ^ 5)) = 4 * sqrt 2 /\
  sqrt (INR (2 ^ 6)) = 8 /\ sqrt (INR (2 ^ 7)) = 8 * sqrt 2.
Proof.
  change (2 ^ 0)%nat with (2 ^ (2 * 0))%nat.
  change (2 ^ 1)%nat with (2 ^ (2 * 0 + 1))%nat.
  change (2 ^ 2)%nat with (2 ^ (2 * 1))%nat.
  change (2 ^ 3)%nat with (2 ^ (2 * 1 + 1))%nat.
  change (2 ^ 4)%nat with (2 ^ (2 * 2))%nat.
  change (2 ^ 5)%nat with (2 ^ (2 * 2 + 1))%nat.
  change (2 ^ 6)%nat with (2 ^ (2 * 3))%nat.
  change (2 ^ 7)%nat with (2 ^ (2 * 3 + 1))%nat.
  rewrite !sqrt_size_even, !sqrt_size_odd. simpl pow.
  repeat split; ring.
Qed.

Lemma iterations_real_values :
  iterations_real 0 = 0%Z /\ iterations_real 1 = 1%Z /\
  iterations_real 2 = 1%Z /\ iterations_real 3 = 2%Z /\
  iterations_real 4 = 3%Z /\ iterations_real 5 = 4%Z /\
  iterations_real 6 = 6%Z /\ iterations_real 7 = 8%Z.
Proof.
  pose proof PI_bounds as Hpi. pose proof sqrt2_bounds as Hq.
  destruct sqrt_size_values as (E0 & E1 & E2 & E3 & E4 & E5 & E6 & E7).
  repeat split; apply iterations_real_eq.
  - rewrite E0. lra.
  - rewrite E1. nra.
  - rewrite E2. lra.
  - rewrite E3. nra.
  - rewrite E4. lra.
  - rewrite E5. nra.
  - rewrite E6. lra.
  - rewrite E7. nra.
Qed.

Lemma round_nearest_values :
  round_nearest_iterations 2 = 2%Z /\ round_nearest_iterations 3 = 2%Z /\
  round_nearest_iterations 4 = 3%Z /\ round_nearest_iterations 5 = 4%Z /\
  round_nearest_iterations 6 = 6%Z /\ round_nearest_iterations 7 = 9%Z.
Proof.
  pose proof PI_bounds as Hpi. pose proof sqrt2_bounds as Hq.
  destruct sqrt_size_values as (E0 & E1 & E2 & E3 & E4 & E5 & E6 & E7).
  unfold round_nearest_iterations.
  repeat split; apply Zfloor_eq.
  - rewrite E2. lra.
  - rewrite E3. nra.
  - rewrite E4. lra.
  - rewrite E5. nra.
  - rewrite E6. lra.
  - rewrite E7. nra.
Qed.

Lemma iterations_float_values :
  map iterations (seq 0 8)
  = map Ok [0; 1; 1; 2; 3; 4; 6; 8]%Z.
Proof. vm_compute. reflexivity. Qed.

(** Up to 128 candidates, which covers the sizes the driver runs, the
    binary64 computation of the program gives the integer part of the exact
    value. *)
Lemma iterations_float_agrees n :
  (n <= 7)%nat -> iterations n = Ok (iterations_real n).
Proof.
  intros Hn.
  destruct iterations_real_values as (I0 & I1 & I2 & I3 & I4 & I5 & I6 & I7).
  do 8 (destruct n as [|n];
        [rewrite ?I0, ?I1, ?I2, ?I3, ?I4, ?I5, ?I6, ?I7;
         vm_compute; reflexivity|]).
  lia.
Qed.

Lemma PI_bounds_fine : 314159 / 100000 < PI < 31416 / 10000.
Proof.
  pose proof (PI_2_3_7_ineq 3) as [Hl Hu].
  unfold PI_2_3_7_tg, tg_alt, Ratan_seq in Hl, Hu.
  cbn [sum_f_R0 Nat.mul Nat.add] in Hl, Hu.
  cbn [pow INR] in Hl, Hu.
  split; lra.
Qed.

Lemma sqrt2_bounds_fine : 141421 / 100000 < sqrt 2 < 141422 / 100000.
Proof.
  assert (H0 : 0 < sqrt 2) by (apply sqrt_lt_R0; lra).
  assert (H2 : sqrt 2 * sqrt 2 = 2) by (apply sqrt_sqrt; lra).
  split; nra.
Qed.

Lemma iterations_real_even k (r : Z) :
  IZR r <= PI / 4 * 2 ^ k < IZR r + 1 -> iterations_real (2 * k) = r.
Proof. intros H. apply iterations_real_eq. rewrite sqrt_size_even. exact H. Qed.

Lemma iterations_real_odd k (r : Z) :
  IZR r <= PI / 4 * (2 ^ k * sqrt 2) < IZR r + 1 ->
  iterations_real (2 * k + 1) = r.
Proof. intros H. apply iterations_real_eq. rewrite sqrt_size_odd. exact H. Qed.

Lemma iterations_real_values_more :
  map iterations_real [8; 9; 10; 11; 12; 13; 14; 15; 16; 17; 18; 19; 20]%nat
  = [12; 17; 25; 35; 50; 71; 100; 142; 201; 284; 402; 568; 804]%Z.
Proof.
  pose proof PI_bounds_fine as Hpi. pose proof sqrt2_bounds_fine as Hq.
  assert (V8 : iterations_real 8 = 12%Z).
  { change 8%nat with (2 * 4)%nat. apply iterations_real_even.
    simpl pow. lra. }
  assert (V9 : iterations_real 9 = 17%Z).
  { change 9%nat with (2 * 4 + 1)%nat. apply iterations_real_odd.
    simpl pow. nra. }
  assert (V10 : iterations_real 10 = 25%Z).
  { change 10%nat with (2 * 5)%nat. apply iterations_real_even.
    simpl pow. lra. }
  assert (V11 : iterations_real 11 = 35%Z).
  { change 11%nat with (2 * 5 + 1)%nat. apply iterations_real_odd.
    simpl pow. nra. }
  assert (V12 : iterations_real 12 = 50%Z).
  { change 12%nat with (2 * 6)%nat. apply iterations_real_even.
    simpl pow. lra. }
  assert (V13 : iterations_real 13 = 71%Z).
  { change 13%nat with (2 * 6 + 1)%nat. apply iterations_real_odd.
    simpl pow. nra. }
  assert (V14 : iterations_real 14 = 100%Z).
  { change 14%nat with (2 * 7)%nat. apply iterations_real_even.
    simpl pow. lra. }
  assert (V15 : iterations_real 15 = 142%Z).
  { change 15%nat with (2 * 7 + 1)%nat. apply iterations_real_odd.
    simpl pow. nra. }
  assert (V16 : iterations_real 16 = 201%Z).
  { change 16%nat with (2 * 8)%nat. apply iterations_real_even.
    simpl pow. lra. }
  assert (V17 : iterations_real 17 = 284%Z).
  { change 17%nat with (2 * 8 + 1)%nat. apply iterations_real_odd.
    simpl pow. nra. }
  assert (V18 : iterations_real 18 = 402%Z).
  { change 18%nat with (2 * 9)%nat. apply iterations_real_even.
    simpl pow. lra. }
  assert (V19 : iterations_real 19 = 568%Z).
  { change 19%nat with (2 * 9 + 1)%nat. apply iterations_real_odd.
    simpl pow. nra. }
  assert (V20 : iterations_real 20 = 804%Z).
  { change 20%nat with (2 * 10)%nat. apply iterations_real_even.
    simpl pow. lra. }
  cbn [map].
  rewrite V8, V9, V10, V11, V12, V13, V14, V15, V16, V17, V18, V19, V20.
  reflexivity.
Qed.

(** Up to 20 search lines the binary64 count is the integer part of
    [pi/4 * sqrt N]. *)
Lemma iterations_agrees_real n :
  (n <= 20)%nat -> iterations n = Ok (iterations_real n).
Proof.
  intros Hn.
  destruct (Nat.le_gt_cases n 7) as [H7|H7];
    [apply iterations_float_agrees, H7|].
  pose proof iterations_real_values_more as V. cbn [map] in V.
  injection V as V8 V9 V10 V11 V12 V13 V14 V15 V16 V17 V18 V19 V20.
  do 8 (destruct n as [|n]; [lia|]).
  do 13 (destruct n as [|n];
         [rewrite ?V8, ?V9, ?V10, ?V11, ?V12, ?V13, ?V14, ?V15, ?V16,
            ?V17, ?V18, ?V19, ?V20; vm_compute; reflexivity|]).
  lia.
Qed.

Lemma iterations_float_total_check :
  forallb (fun n => match iterations n with
                    | Ok r => (0 <=? r)%Z
                    | Raise _ => false
                    end) (seq 0 1024) = true.
Proof. vm_compute. reflexivity. Qed.

Lemma iterations_range n :
  (n <= 1023)%nat -> exists r, iterations n = Ok r /\ (0 <= r)%Z.
Proof.
  intros H. pose proof iterations_float_total_check as C.
  rewrite forallb_forall in C.
  specialize (C n ltac:(apply in_seq; lia)).
  destruct (iterations n) as [r|e]; [|discriminate].
  exists r. split; [reflexivity|]. apply Z.leb_le, C.
Qed.

Lemma iterations_overflow n :
  (1023 < n)%nat -> iterations n = Raise OverflowError.
Proof.
  intros H. unfold iterations, float_of_pow2.
  apply Nat.leb_gt in H. rewrite H. reflexivity.
Qed.

Lemma IZR_size n : IZR (2 ^ Z.of_nat n) = INR (2 ^ n).
Proof.
  rewrite <- pow_IZR, pow_INR. reflexivity.
Qed.

(** From 4 candidates up to the largest size whose count is computed, the
    square of [2 r + 1] lies between [N] and [4 N]. *)
Lemma iterations_window_check :
  forallb (fun n => match iterations n with
                    | Ok r =>
                        (0 <=? r)%Z
                        && (2 ^ Z.of_nat n <=? (2 * r + 1) * (2 * r + 1))%Z
                        && ((2 * r + 1) * (2 * r + 1)
                            <=? 4 * 2 ^ Z.of_nat n)%Z
                    | Raise _ => false
                    end) (seq 2 1022) = true.
Proof. vm_compute. reflexivity. Qed.

Lemma iterations_window n :
  (2 <= n <= 1023)%nat ->
  exists r, iterations n = Ok r /\ (0 <= r)%Z /\
            INR (2 ^ n) <= (2 * IZR r + 1) * (2 * IZR r + 1) <= 4 * INR (2 ^ n).
Proof.
  intros H. pose proof iterations_window_check as C.
  rewrite forallb_forall in C.
  specialize (C n ltac:(apply in_seq; lia)).
  destruct (iterations n) as [r|e]; [|discriminate].
  apply andb_prop in C as [C C3]. apply andb_prop in C as [C1 C2].
  apply Z.leb_le in C1, C2, C3.
  exists r. split; [reflexivity|]. split; [exact C1|].
  apply IZR_le in C2, C3.
  rewrite (mult_IZR 4), IZR_size in C3. rewrite IZR_size in C2.
  rewrite (mult_IZR (2 * r + 1)), plus_IZR, mult_IZR in C2, C3.
  split; lra.
Qed.

Lemma passes_agrees_real n :
  (n <= 20)%nat -> passes n = iterations_real n.
Proof. intros H. apply passes_Ok, iterations_agrees_real, H. Qed.

Lemma INR_passes n r :
  iterations n = Ok r -> (0 <= r)%Z -> INR (Z.to_nat (passes n)) = IZR r.
Proof.
  intros H H0. rewrite (@passes_Ok n r H), INR_IZR_INZ, Z2Nat.id by assumption.
  reflexivity.
Qed.

(** From 4 candidates up to the largest size whose count is computed, the
    count of the program leaves the marked amplitude above [1 / sqrt 2] and
    every other amplitude below it. *)
Lemma passes_amps_dominate n :
  (2 <= n <= 1023)%nat ->
  let ab := grover_amps n (Z.to_nat (passes n)) in
  / 2 < fst ab * fst ab /\ snd ab * snd ab < / 6.
Proof.
  intros Hn. destruct (@iterations_window n Hn) as (r & Hr & H0 & Hw).
  apply amps_dominate_in_window; [lia|].
  rewrite (@INR_passes n r Hr H0).
  apply square_window_angle.
  - apply size_ge_4. lia.
  - apply IZR_le in H0. lra.
  - exact Hw.
Qed.

Lemma py_round_eq x k : IZR k - / 2 < x < IZR k + / 2 -> py_round x = k.
Proof.
  intros [H1 H2]. unfold py_round.
  destruct (Rle_lt_dec (IZR k) x) as [H|H].
  - rewrite (@Zfloor_eq k x) by lra.
    destruct (Rlt_dec (x - IZR k) (/ 2)); [reflexivity|lra].
  - rewrite (@Zfloor_eq (k - 1) x) by (rewrite minus_IZR; lra).
    rewrite minus_IZR.
    destruct (Rlt_dec (x - (IZR k - 1)) (/ 2)); [lra|].
    destruct (Rlt_dec (/ 2) (x - (IZR k - 1))); [lia|lra].
Qed.

Section TrigSchedule.

Variable N : R.
Hypothesis HN : 1 < N.

Lemma grover_angle_lt a :
  0 <= a <= PI / 2 -> inv_sqrt N < sin a -> grover_angle N < a.
Proof.
  intros Ha Hs. destruct (Rlt_le_dec (grover_angle N) a) as [H|H]; [exact H|].
  exfalso. pose proof (grover_angle_range HN) as [H0 H1].
  assert (sin a <= sin (grover_angle N)).
  { apply sin_incr_1; pose proof PI_RGT_0; lra. }
  rewrite (sin_grover_angle HN) in *. lra.
Qed.

Lemma grover_angle_gt a :
  0 <= a <= PI / 2 -> sin a < inv_sqrt N -> a < grover_angle N.
Proof.
  intros Ha Hs. destruct (Rlt_le_dec a (grover_angle N)) as [H|H]; [exact H|].
  exfalso. pose proof (grover_angle_range HN) as [H0 H1].
  assert (sin (grover_angle N) <= sin a).
  { apply sin_incr_1; pose proof PI_RGT_0; lra. }
  rewrite (sin_grover_angle HN) in *. lra.
Qed.

(** The count of the trigonometric derivation is [k] when the angle lies
    between [pi / (4 (k + 1))] and [pi / (4 k)]. *)
Lemma trig_ratio_round (k : Z) :
  4 * (IZR k + 1) * grover_angle N > PI ->
  4 * IZR k * grover_angle N < PI ->
  py_round (acos (inv_sqrt N) / (2 * asin (inv_sqrt N))) = k.
Proof.
  intros Hlo Hhi. apply py_round_eq.
  pose proof (grover_angle_range HN) as [H0 H1].
  pose proof (inv_sqrt_pos HN) as Hs0. pose proof (inv_sqrt_lt_1 HN) as Hs1.
  rewrite acos_asin by lra. fold (grover_angle N).
  set (th := grover_angle N) in *.
  assert (E : (PI / 2 - th) / (2 * th) * (2 * th) = PI / 2 - th)
    by (field; lra).
  set (q := (PI / 2 - th) / (2 * th)) in *.
  split; nra.
Qed.

End TrigSchedule.

Lemma sin_lower_between lo hi a :
  0 <= lo -> lo <= a -> a <= hi -> hi <= 1 ->
  lo - hi ^ 3 / 6 <= sin a.
Proof.
  intros H0 H1 H2 H3.
  pose proof (@sin_cubic_lower a ltac:(lra)) as H.
  assert (a ^ 3 <= hi ^ 3) by (apply pow_incr; lra).
  lra.
Qed.

Lemma inv_sqrt_values :
  inv_sqrt (INR (2 ^ 2)) = / 2 /\ inv_sqrt (INR (2 ^ 3)) = / (2 * sqrt 2) /\
  inv_sqrt (INR (2 ^ 4)) = / 4 /\ inv_sqrt (INR (2 ^ 5)) = / (4 * sqrt 2) /\
  inv_sqrt (INR (2 ^ 6)) = / 8 /\ inv_sqrt (INR (2 ^ 7)) = / (8 * sqrt 2).
Proof.
  destruct sqrt_size_values as (E0 & E1 & E2 & E3 & E4 & E5 & E6 & E7).
  unfold inv_sqrt. rewrite E2, E3, E4, E5, E6, E7. repeat split.
Qed.

Lemma inv_odd_bounds c :
  0 < c -> / (c * (1415 / 1000)) < / (c * sqrt 2) < / (c * (1414 / 1000)).
Proof.
  intros Hc. pose proof sqrt2_bounds as Hq.
  split; apply Rinv_lt_contravar; nra.
Qed.

Lemma trig_iterations_values :
  trig_iterations 2 = 1%Z /\ trig_iterations 3 = 2%Z /\
  trig_iterations 4 = 3%Z /\ trig_iterations 5 = 4%Z /\
  trig_iterations 6 = 6%Z /\ trig_iterations 7 = 8%Z.
Proof.
  pose proof PI_bounds as Hpi.
  destruct inv_sqrt_values as (E2 & E3 & E4 & E5 & E6 & E7).
  assert (H2 : 1 < INR (2 ^ 2)) by (pose proof (@size_ge_4 2 ltac:(lia)); lra).
  assert (H3 : 1 < INR (2 ^ 3)) by (pose proof (@size_ge_4 3 ltac:(lia)); lra).
  assert (H4 : 1 < INR (2 ^ 4)) by (pose proof (@size_ge_4 4 ltac:(lia)); lra).
  assert (H5 : 1 < INR (2 ^ 5)) by (pose proof (@size_ge_4 5 ltac:(lia)); lra).
  assert (H6 : 1 < INR (2 ^ 6)) by (pose proof (@size_ge_4 6 ltac:(lia)); lra).
  assert (H7 : 1 < INR (2 ^ 7)) by (pose proof (@size_ge_4 7 ltac:(lia)); lra).
  pose proof (@inv_odd_bounds 2 ltac:(lra)) as B3.
  pose proof (@inv_odd_bounds 4 ltac:(lra)) as B5.
  pose proof (@inv_odd_bounds 8 ltac:(lra)) as B7.
  assert (T : forall n k lo hi,
             1 < INR (2 ^ n) ->
             0 <= lo -> lo <= PI / (4 * IZR k) <= hi -> hi <= 1 ->
             0 < IZR k ->
             inv_sqrt (INR (2 ^ n)) < lo - hi ^ 3 / 6 ->
             PI / (4 * (IZR k + 1)) < inv_sqrt (INR (2 ^ n)) ->
             trig_iterations n = k).
  { intros n k lo hi HN Hlo0 [Hlo Hhi] Hhi1 Hk Hup Hdown.
    unfold trig_iterations. fold (inv_sqrt (INR (2 ^ n))).
    assert (Hb : PI / (4 * IZR k) * (4 * IZR k) = PI) by (field; lra).
    assert (Hc : PI / (4 * (IZR k + 1)) * (4 * (IZR k + 1)) = PI)
      by (field; lra).
    assert (Hgt : PI / (4 * (IZR k + 1)) < grover_angle (INR (2 ^ n))).
    { apply (grover_angle_gt HN).
      - split; [apply Rlt_le, Rdiv_lt_0_compat; lra|].
        apply Rmult_le_reg_r with (4 * (IZR k + 1)); [lra|]. rewrite Hc. nra.
      - eapply Rlt_trans; [apply sin_lt_x, Rdiv_lt_0_compat; lra|exact Hdown]. }
    assert (Hlt : grover_angle (INR (2 ^ n)) < PI / (4 * IZR k)).
    { apply (grover_angle_lt HN).
      - split; [lra|]. pose proof PI2_3_2. lra.
      - eapply Rlt_le_trans; [exact Hup|].
        apply sin_lower_between; assumption. }
    apply (trig_ratio_round HN).
    - set (th := grover_angle (INR (2 ^ n))) in *.
      set (a := PI / (4 * (IZR k + 1))) in *. nra.
    - set (th := grover_angle (INR (2 ^ n))) in *.
      set (b := PI / (4 * IZR k)) in *. nra. }
  repeat split.
  - apply (T 2%nat 1%Z (78 / 100) (79 / 100)); try lra;
      rewrite ?E2; simpl pow; lra.
  - apply (T 3%nat 2%Z (392 / 1000) (394 / 1000)); try lra;
      rewrite ?E3; simpl pow; lra.
  - apply (T 4%nat 3%Z (2616 / 10000) (2625 / 10000)); try lra;
      rewrite ?E4; simpl pow; lra.
  - apply (T 5%nat 4%Z (1962 / 10000) (1969 / 10000)); try lra;
      rewrite ?E5; simpl pow; lra.
  - apply (T 6%nat 6%Z (1308 / 10000) (13125 / 100000)); try lra;
      rewrite ?E6; simpl pow; lra.
  - apply (T 7%nat 8%Z (981 / 10000) (985 / 10000)); try lra;
      rewrite ?E7; simpl pow; lra.
Qed.

(* ================================================================== *)
(** * Whole runs *)
(* ================================================================== *)

Section Runs.

Lemma final_state_loop n w :
  final_state n w
  = loop_state n (oracle_matrix n (make_f n w)) (Z.to_nat (passes n)).
Proof. reflexivity. Qed.

Lemma val2bits_double n w :
  val2bits (n + 1) (2 * w) = val2bits n w ++ [false].
Proof.
  rewrite Nat.add_1_r. cbn [val2bits].
  rewrite (Nat.mul_comm 2 w), Nat.div_mul by lia.
  rewrite Nat.odd_mul. rewrite Bool.andb_false_r. reflexivity.
Qed.

Lemma make_f_marked n w :
  (w < 2 ^ n)%nat -> make_f n w (val2bits n w) = 1%Z.
Proof.
  intros Hw. rewrite make_f_at, bits2val_val2bits_small by assumption.
  rewrite Nat.eqb_refl. apply Nat.ltb_lt in Hw. rewrite Hw. reflexivity.
Qed.

(** The run for four or more candidates, as long as the count is
    computed. *)
Lemma run_experiment_marked n w :
  (2 <= n <= 1023)%nat -> (w < 2 ^ n)%nat ->
  run_experiment n w
  = Ok (val2bits n w ++ [false],
        fst (grover_amps n (Z.to_nat (passes n)))
        * fst (grover_amps n (Z.to_nat (passes n))) / 2).
Proof.
  intros Hn Hw.
  destruct (@passes_amps_dominate n Hn) as [Ha Hb]. cbv zeta in Ha, Hb.
  destruct (@iterations_range n ltac:(lia)) as (r & Hr & _).
  rewrite (@run_experiment_unfold n w r Hr).
  rewrite (@passes_Ok n r Hr) in *.
  rewrite (@select_outcome_index _ _ (2 * w)%nat
             (fst (grover_amps n (Z.to_nat r))
              * fst (grover_amps n (Z.to_nat r)) / 2)).
  - rewrite st_nbits_loop_state, val2bits_double, removelast_last.
    rewrite make_f_marked by assumption. reflexivity.
  - apply maxprob_index_marked; [assumption|lra].
Qed.


Lemma inv_sqrt2_pow_pos n : 0 < inv_sqrt2 ^ n.
Proof. apply pow_lt, inv_sqrt2_pos. Qed.


Lemma line_prob_final n w :
  (w < 2 ^ n)%nat ->
  line_prob (final_state n w) w
  = fst (grover_amps n (Z.to_nat (passes n)))
    * fst (grover_amps n (Z.to_nat (passes n))).
Proof.
  intros Hw. unfold line_prob. rewrite final_state_loop.
  assert (E : (2 ^ (n + 1) = 2 * 2 ^ n)%nat)
    by (rewrite Nat.add_1_r; apply Nat.pow_succ_r').
  rewrite !loop_state_prob by lia.
  rewrite (Nat.mul_comm 2 w), Nat.div_add_l, Nat.div_mul by lia.
  change (1 / 2)%nat with 0%nat. rewrite Nat.add_0_r, Nat.eqb_refl. lra.
Qed.

End Runs.

(* ================================================================== *)
(** * The pipeline finds the marked string *)
(* ================================================================== *)




(* ================================================================== *)
(** * The iteration scheduler *)
(* ================================================================== *)

(** C3, as the program has it: up to 20 search lines the scheduler, which
    computes in binary64 arithmetic, returns the integer part
    [floor (pi/4 * sqrt N)] of the exact value, a non-negative integer; the
    nearest integer [floor (pi/4 * sqrt N + 1/2)] is the same number when
    the fractional part of [pi/4 * sqrt N] is below 1/2, and one more
    otherwise. *)
Theorem iterations_truncates (nbits : nat) :
  (nbits <= 20)%nat ->
  let x := PI / 4 * sqrt (INR (2 ^ nbits)) in
  exists r : Z,
    iterations nbits = Ok r /\
    r = Zfloor x /\
    (0 <= r)%Z /\
    IZR r <= x < IZR r + 1 /\
    ((x - IZR r < / 2 /\ round_nearest_iterations nbits = r) \/
     (/ 2 <= x - IZR r /\ round_nearest_iterations nbits = (r + 1)%Z)).
Proof.
  intros Hn x. exists (iterations_real nbits).
  split; [apply iterations_agrees_real, Hn|].
  destruct (iterations_real_floor nbits) as (E & H0 & Hb).
  fold x in E, Hb.
  repeat split; try assumption; try apply Hb.
  unfold round_nearest_iterations. fold x.
  destruct (Rlt_le_dec (x - IZR (iterations_real nbits)) (/ 2)) as [H|H].
  - left. split; [exact H|]. apply Zfloor_eq. lra.
  - right. split; [exact H|]. apply Zfloor_eq. rewrite plus_IZR. lra.
Qed.

Lemma iterations_truncates_witness :
  let x := PI / 4 * sqrt (INR (2 ^ 7)) in
  exists r : Z,
    iterations 7 = Ok r /\
    r = Zfloor x /\
    (0 <= r)%Z /\
    IZR r <= x < IZR r + 1 /\
    ((x - IZR r < / 2 /\ round_nearest_iterations 7 = r) \/
     (/ 2 <= x - IZR r /\ round_nearest_iterations 7 = (r + 1)%Z)).
Proof. apply (@iterations_truncates 7). lia. Defined.

(** For [N = 4] the program runs one iteration, the integer part of
    [pi/2], where rounding [pi/2] to the nearest integer gives two. *)
Lemma iterations_not_round_nearest :
  iterations_real 2 = 1%Z /\
  iterations 2 = Ok 1%Z /\
  round_nearest_iterations 2 = 2%Z.
Proof.
  split; [apply iterations_real_values|].
  split; [vm_compute; reflexivity|apply round_nearest_values].
Qed.

(** C7, as the program has it: for [N] in 4, 8, 16, 32, 64, 128 the count
    of the program, over the reals and over floats, is 1, 2, 3, 4, 6, 8 and
    equals the count [round (arccos (1/sqrt N) / (2 arcsin (1/sqrt N)))];
    the nearest integer to [pi/4 * sqrt N] is the same number for
    [N] in 8, 16, 32, 64 and is one more for [N = 4] and [N = 128]. *)
Theorem iteration_derivations_on_driver_sizes :
  map iterations_real [2; 3; 4; 5; 6; 7]%nat = [1; 2; 3; 4; 6; 8]%Z /\
  map iterations [2; 3; 4; 5; 6; 7]%nat
  = map Ok [1; 2; 3; 4; 6; 8]%Z /\
  map trig_iterations [2; 3; 4; 5; 6; 7]%nat = [1; 2; 3; 4; 6; 8]%Z /\
  map round_nearest_iterations [2; 3; 4; 5; 6; 7]%nat
  = [2; 2; 3; 4; 6; 9]%Z.
Proof.
  destruct iterations_real_values as (_ & _ & I2 & I3 & I4 & I5 & I6 & I7).
  destruct trig_iterations_values as (T2 & T3 & T4 & T5 & T6 & T7).
  destruct round_nearest_values as (R2 & R3 & R4 & R5 & R6 & R7).
  cbn [map]. rewrite I2, I3, I4, I5, I6, I7, T2, T3, T4, T5, T6, T7.
  rewrite R2, R3, R4, R5, R6, R7.
  repeat split.
Qed.

(** For [N = 128] the two derivations of the specification differ: the
    nearest integer to [pi/4 * sqrt 128] is 9, the trigonometric count is 8,
    and the program runs 8 iterations. *)
Lemma derivations_differ_at_128 :
  round_nearest_iterations 7 = 9%Z /\
  trig_iterations 7 = 8%Z /\
  iterations_real 7 = 8%Z /\
  iterations 7 = Ok 8%Z.
Proof.
  split; [apply round_nearest_values|].
  split; [apply trig_iterations_values|].
  split; [apply iterations_real_values|vm_compute; reflexivity].
Qed.

(** C8: for a single candidate ([N = 1], [nbits = 0]) the scheduler returns
    0; the float computation the program performs returns normally, with
    the same value. *)
Theorem iterations_single_candidate :
  iterations_real 0 = 0%Z /\ iterations 0 = Ok 0%Z.
Proof. split; [apply iterations_real_values|vm_compute; reflexivity]. Qed.

(* ================================================================== *)
(** * The outcome selector *)
(* ================================================================== *)

(** C6: the selector evaluates the predicate on the most probable basis
    string without its last bit, which is the string of the search lines of
    that basis index; it raises [AssertionError] when the value is not 1
    and returns normally, with the string and its probability, when the
    value is 1. *)
Theorem select_outcome_checks_stripped_winner (f : Predicate) (psi : State) :
  let maxbits := fst (maxprob psi) in
  removelast maxbits
  = val2bits (st_nbits psi - 1) (fst (maxprob_index psi) / 2) /\
  ((f (removelast maxbits) = 1%Z /\
    select_outcome f psi = Ok (maxprob psi)) \/
   (f (removelast maxbits) <> 1%Z /\
    select_outcome f psi = Raise AssertionError)).
Proof.
  intros maxbits. split.
  - unfold maxbits, maxprob. cbn [fst].
    destruct (st_nbits psi) as [|k].
    + reflexivity.
    + rewrite removelast_val2bits. f_equal. lia.
  - unfold select_outcome. unfold maxbits.
    destruct (maxprob psi) as [bs p]. cbn [fst].
    destruct (Z.eqb_spec (f (removelast bs)) 1) as [E|E].
    + left. split; [exact E|reflexivity].
    + right. split; [exact E|reflexivity].
Qed.

(* ================================================================== *)
(** * More on [make_f] *)
(* ================================================================== *)

Lemma val2bits_inj_length d bs w :
  length bs = d -> (w < 2 ^ d)%nat -> bits2val bs = w -> bs = val2bits d w.
Proof.
  intros Hl Hw Hv. rewrite <- Hv, <- Hl. symmetry. apply val2bits_bits2val.
Qed.

Lemma filter_eqb_seq_none w N :
  (N <= w)%nat -> filter (fun x => (x =? w)%nat) (seq 0 N) = [].
Proof.
  induction N as [|N IH]; intros Hw; [reflexivity|].
  rewrite seq_S, filter_app, IH by lia. cbn [filter Nat.add app].
  destruct (Nat.eqb_spec N w); [lia|reflexivity].
Qed.

Lemma filter_eqb_seq w N :
  (w < N)%nat -> filter (fun x => (x =? w)%nat) (seq 0 N) = [w].
Proof.
  induction N as [|N IH]; intros Hw; [lia|].
  rewrite seq_S, filter_app. cbn [filter Nat.add].
  destruct (Nat.eqb_spec N w) as [->|Hne].
  - rewrite filter_eqb_seq_none by lia. reflexivity.
  - rewrite IH by lia. reflexivity.
Qed.

(** X1: for a target below [2^d], the predicate of [make_f] returns 1 on
    the bit string of the target and 0 on every other string of [d] bits:
    among the [2^d] inputs exactly one, the target, is marked. *)
Theorem make_f_marks_exactly_the_target (d w : nat) :
  (w < 2 ^ d)%nat ->
  (forall bs, length bs = d ->
      (bs = val2bits d w /\ make_f d w bs = 1%Z) \/
      (bs <> val2bits d w /\ make_f d w bs = 0%Z)) /\
  filter (fun x => Z.eqb (make_f d w (val2bits d x)) 1) (seq 0 (2 ^ d)) = [w].
Proof.
  intros Hw. split.
  - intros bs Hl. rewrite make_f_at.
    apply Nat.ltb_lt in Hw as Hw'. rewrite Hw', Bool.andb_true_r.
    destruct (Nat.eqb_spec (bits2val bs) w) as [E|E].
    + left. split; [apply val2bits_inj_length; assumption|reflexivity].
    + right. split; [|reflexivity]. intros ->. apply E.
      apply bits2val_val2bits_small, Hw.
  - rewrite <- (filter_eqb_seq Hw). apply filter_ext_in.
    intros x Hx. apply in_seq in Hx.
    pose proof (@marked_make_f d w x Hw ltac:(lia)) as H.
    unfold marked in H. exact H.
Qed.

Lemma make_f_marks_exactly_the_target_witness :
  (forall bs, length bs = 3%nat ->
      (bs = val2bits 3 5 /\ make_f 3 5 bs = 1%Z) \/
      (bs <> val2bits 3 5 /\ make_f 3 5 bs = 0%Z)) /\
  filter (fun x => Z.eqb (make_f 3 5 (val2bits 3 x)) 1) (seq 0 (2 ^ 3))
  = [5%nat].
Proof. apply (@make_f_marks_exactly_the_target 3 5). simpl; lia. Defined.

Section Announcement.

#[local] Open Scope nat_scope.

Lemma repeat_snoc (A : Type) (a : A) k : repeat a k ++ [a] = repeat a (S k).
Proof.
  induction k as [|k IH]; [reflexivity|]. simpl. rewrite IH. reflexivity.
Qed.

Lemma val2bits_zero d : val2bits d 0 = repeat false d.
Proof.
  induction d as [|d IH]; [reflexivity|].
  cbn [val2bits]. change (0 / 2) with 0. rewrite IH.
  change (Nat.odd 0) with false. apply repeat_snoc.
Qed.

Lemma val2bits_pad d : forall L v,
  v < 2 ^ L -> L <= d ->
  val2bits d v = repeat false (d - L) ++ val2bits L v.
Proof.
  induction d as [|d IH]; intros L v Hv HL.
  - assert (L = 0) by lia. subst. reflexivity.
  - destruct L as [|L].
    + simpl in Hv. assert (v = 0) by lia. subst.
      rewrite val2bits_zero, Nat.sub_0_r, app_nil_r. reflexivity.
    + cbn [val2bits]. rewrite Nat.pow_succ_r' in Hv.
      rewrite (IH L (v / 2)).
      * rewrite <- app_assoc. reflexivity.
      * apply Nat.Div0.div_lt_upper_bound. exact Hv.
      * lia.
Qed.

Lemma bin_digits_val2bits fuel : forall v acc,
  v <= fuel ->
  exists L,
    v < 2 ^ L /\ (v = 0 -> L = 0) /\ (0 < v -> 1 <= L /\ 2 ^ (L - 1) <= v) /\
    bin_digits fuel v acc = val2bits L v ++ acc.
Proof.
  induction fuel as [|fuel IH]; intros v acc Hv.
  - assert (v = 0) by lia. subst. exists 0. repeat split; simpl; lia.
  - cbn [bin_digits]. destruct (Nat.eqb_spec v 0) as [->|Hne].
    + exists 0. repeat split; simpl; lia.
    + assert (Hh : v / 2 <= fuel).
      { pose proof (Nat.Div0.mul_div_le v 2). lia. }
      destruct (IH (v / 2) (Nat.odd v :: acc) Hh) as (L & H1 & H2 & H3 & H4).
      exists (S L).
      pose proof (Nat.div_mod_eq v 2) as Ev.
      pose proof (Nat.mod_upper_bound v 2 ltac:(lia)) as Hm.
      split; [rewrite Nat.pow_succ_r'; lia|].
      split; [lia|]. split.
      * intros _. split; [lia|]. rewrite Nat.sub_succ, Nat.sub_0_r.
        destruct (Nat.eq_dec (v / 2) 0) as [E0|E0].
        -- rewrite (H2 E0). simpl. lia.
        -- destruct (H3 ltac:(lia)) as [HL Hp].
           replace L with (S (L - 1)) by lia.
           rewrite Nat.pow_succ_r'. lia.
      * rewrite H4. cbn [val2bits]. rewrite <- app_assoc. reflexivity.
Qed.

Lemma format_b_val2bits d w :
  1 <= d -> w < 2 ^ d -> format_b d w = val2bits d w.
Proof.
  intros Hd Hw. unfold format_b.
  destruct (Nat.eqb_spec w 0) as [->|Hne].
  - rewrite val2bits_zero. cbn [length].
    replace d with (S (d - 1)) at 2 by lia. apply repeat_snoc.
  - destruct (@bin_digits_val2bits w w [] (Nat.le_refl w))
      as (L & H1 & _ & H3 & H4).
    rewrite H4, app_nil_r, length_val2bits.
    destruct (H3 ltac:(lia)) as [HL Hp].
    assert (HLd : L <= d).
    { destruct (Nat.le_gt_cases L d) as [H|H]; [exact H|exfalso].
      assert (2 ^ d <= 2 ^ (L - 1)) by (apply Nat.pow_le_mono_r; lia).
      lia. }
    symmetry. apply val2bits_pad; assumption.
Qed.

End Announcement.

(** X2: for [d >= 1] and a target below [2^d], the string [make_f]
    announces, [format(answer_true, '0{}b'.format(d))], has [d] characters
    and spells the bit string on which the predicate returns 1. *)
Theorem announced_string_is_marked (d answer_true : nat) :
  (1 <= d)%nat -> (answer_true < 2 ^ d)%nat ->
  bit_string d answer_true = render (val2bits d answer_true) /\
  String.length (bit_string d answer_true) = d /\
  make_f d answer_true (val2bits d answer_true) = 1%Z.
Proof.
  intros Hd Hw. unfold bit_string. rewrite format_b_val2bits by assumption.
  split; [reflexivity|]. split; [|apply make_f_marked, Hw].
  unfold render.
  rewrite <- (length_val2bits d answer_true) at 2.
  generalize (val2bits d answer_true). intros l.
  induction l as [|b l IH]; [reflexivity|]. cbn. rewrite IH. reflexivity.
Qed.

Lemma announced_string_is_marked_witness :
  bit_string 3 5 = render (val2bits 3 5) /\
  String.length (bit_string 3 5) = 3%nat /\
  make_f 3 5 (val2bits 3 5) = 1%Z.
Proof. apply (@announced_string_is_marked 3 5); simpl; lia. Defined.

(** The announcement on small inputs; without any line ([d = 0]) the format
    still prints one digit. *)
Example bit_string_3_5 : bit_string 3 5 = render [true; false; true].
Proof. reflexivity. Qed.
Example bit_string_3_1 : bit_string 3 1 = render [false; false; true].
Proof. reflexivity. Qed.
Example bit_string_0_0 : bit_string 0 0 = render [false].
Proof. reflexivity. Qed.

(* ================================================================== *)
(** * More on [run_experiment] *)
(* ================================================================== *)



(** X5: applying the one-line Hadamard gate to each of the lines
    [0 .. nbits] in turn gives the same state as applying the Hadamard
    operator over [nbits + 1] lines once to [zeros(nbits) * ones(1)]. *)
Theorem preparation_is_combined_hadamard (nbits j : nat) :
  (j < 2 ^ (nbits + 1))%nat ->
  st_at (initial_state nbits) j
  = st_at (Apply (Hadamard (nbits + 1))
                 (TensorState (zeros nbits) (ones 1))) j.
Proof.
  intros Hj. rewrite initial_state_at by assumption.
  cbn [Apply st_at]. rewrite op_nbits_Hadamard.
  assert (H1 : (1 < 2 ^ (nbits + 1))%nat).
  { rewrite Nat.add_1_r, Nat.pow_succ_r'. pose proof (pow2_pos nbits). lia. }
  rewrite (Csum_single _ H1).
  - change (TensorState (zeros nbits) (ones 1)) with (prepared nbits 0).
    rewrite prepared_0_at. cbn [Nat.eqb]. rewrite Cmul_1_r.
    rewrite Nat.add_1_r.
    change (Hadamard (S nbits)) with (TensorProduct (Hadamard nbits) Hadamard1).
    cbn [TensorProduct op_at]. change (2 ^ op_nbits Hadamard1)%nat with 2%nat.
    change (1 / 2)%nat with 0%nat. change (1 mod 2)%nat with 1%nat.
    rewrite Hadamard_col0.
    + rewrite minus_state_at by (apply Nat.mod_upper_bound; lia). reflexivity.
    + apply Nat.Div0.div_lt_upper_bound.
      rewrite Nat.add_1_r, Nat.pow_succ_r' in Hj. exact Hj.
  - intros k _ Hk.
    change (TensorState (zeros nbits) (ones 1)) with (prepared nbits 0).
    rewrite prepared_0_at. destruct (Nat.eqb_spec k 1); [lia|]. ring.
Qed.

Lemma preparation_is_combined_hadamard_witness :
  st_at (initial_state 2) 5
  = st_at (Apply (Hadamard (2 + 1)) (TensorState (zeros 2) (ones 1))) 5.
Proof. apply (@preparation_is_combined_hadamard 2 5). simpl; lia. Defined.

(* ================================================================== *)
(** * The oracle as a phase inversion, the diffusion as an involution *)
(* ================================================================== *)

Lemma OracleUf_Ok_inv nlines f u :
  OracleUf nlines f = Ok u ->
  u = mkOp nlines (fun row col =>
                     if (row =? oracle_image nlines f col)%nat then C1
                     else C0).
Proof.
  unfold OracleUf. destruct (predicate_boolean nlines f); [|discriminate].
  intros H. injection H as <-. reflexivity.
Qed.

Lemma OracleUf_Ok_matrix n f u :
  OracleUf (n + 1) f = Ok u -> u = oracle_matrix n f.
Proof. intros H. apply OracleUf_Ok_inv in H. exact H. Qed.

Lemma Apply_oracle_initial (n : nat) (f : Predicate) (j : nat) :
  (j < 2 ^ (n + 1))%nat ->
  st_at (Apply (oracle_matrix n f) (initial_state n)) j
  = ((if marked n f (j / 2) then RtoC (-1) else C1)
     * st_at (initial_state n) j)%C.
Proof.
  intros Hj.
  assert (E : (2 ^ (n + 1) = 2 * 2 ^ n)%nat)
    by (rewrite Nat.add_1_r; apply Nat.pow_succ_r').
  assert (Hq : (j / 2 < 2 ^ n)%nat)
    by (apply Nat.Div0.div_lt_upper_bound; lia).
  assert (Hr : (j mod 2 < 2)%nat) by (apply Nat.mod_upper_bound; lia).
  rewrite Apply_oracle by assumption.
  rewrite !initial_state_at by (assumption || apply oracle_image_bound, Hj).
  assert (Ej : j = (j / 2 * 2 + j mod 2)%nat).
  { rewrite (Nat.mul_comm (j / 2) 2). apply Nat.div_mod_eq. }
  destruct (@oracle_on_pair n f (j / 2) (j mod 2) Hq Hr) as [_ Hs].
  rewrite <- Ej in Hs. rewrite Hs. unfold oracle_sign. ring.
Qed.

(** X6: on the state prepared before the loop, the oracle the builder
    returns changes nothing but the sign of the amplitudes whose search part
    the predicate marks: the "phase inversion via the u unitary" of the
    source. *)
Theorem oracle_inverts_phase_of_marked
        (n : nat) (f : Predicate) (u : Operator) (j : nat) :
  OracleUf (n + 1) f = Ok u -> (j < 2 ^ (n + 1))%nat ->
  st_at (Apply u (initial_state n)) j
  = ((if Z.eqb (f (val2bits n (j / 2))) 1 then RtoC (-1) else C1)
     * st_at (initial_state n) j)%C.
Proof.
  intros Hu Hj. apply OracleUf_Ok_matrix in Hu. subst u.
  apply Apply_oracle_initial, Hj.
Qed.

Lemma oracle_inverts_phase_of_marked_witness :
  st_at (Apply (oracle_matrix 2 all_ones) (initial_state 2)) 6
  = ((if Z.eqb (all_ones (val2bits 2 (6 / 2))) 1 then RtoC (-1) else C1)
     * st_at (initial_state 2) 6)%C.
Proof.
  apply (@oracle_inverts_phase_of_marked
           2 all_ones (oracle_matrix 2 all_ones) 6).
  - reflexivity.
  - simpl; lia.
Defined.

Lemma RtoC_inv_size n : (RtoC (INR (2 ^ n)) * RtoC (/ INR (2 ^ n)))%C = C1.
Proof.
  rewrite <- RtoC_mul. unfold C1. f_equal. apply Rinv_r.
  pose proof (INR_pow2_pos n). lra.
Qed.

(** X7: the diffusion operator is its own inverse: applied twice to a vector
    of [2^n] amplitudes it gives the vector back. *)
Theorem diffusion_twice_is_identity (n : nat) (c : nat -> C) (x : nat) :
  (x < 2 ^ n)%nat ->
  st_at (Apply (diffusion n) (Apply (diffusion n) (mkState n c))) x = c x.
Proof.
  intros Hx.
  change (Apply (diffusion n) (mkState n c))
    with (mkState n (st_at (Apply (diffusion n) (mkState n c)))).
  rewrite Apply_diffusion by assumption.
  rewrite (@Apply_diffusion n c x Hx).
  assert (Hm : mean n (st_at (Apply (diffusion n) (mkState n c))) = mean n c).
  { unfold mean.
    rewrite (Csum_ext _ (fun k => (RtoC 2 * mean n c - c k)%C))
      by (intros k Hk; apply Apply_diffusion, Hk).
    rewrite Csum_sub, Csum_const. unfold mean.
    pose proof (RtoC_inv_size n) as Hi.
    set (S := Csum c (2 ^ n)) in *.
    set (N := RtoC (INR (2 ^ n))) in *. set (iN := RtoC (/ INR (2 ^ n))) in *.
    replace ((N * (RtoC 2 * (S * iN)) - S) * iN)%C
      with ((RtoC 2 * S * iN * (N * iN) - S * iN))%C by ring.
    rewrite Hi. fold C1.
    replace (RtoC 2) with (C1 + C1)%C by (apply C_eq; cbn; ring). ring. }
  rewrite Hm. ring.
Qed.

Lemma diffusion_twice_is_identity_witness :
  st_at (Apply (diffusion 3)
               (Apply (diffusion 3) (mkState 3 (fun k => RtoC (INR k))))) 6
  = RtoC (INR 6).
Proof.
  apply (@diffusion_twice_is_identity 3 (fun k => RtoC (INR k)) 6).
  simpl; lia.
Defined.

(** X17: the matrix the source describes in its comment: the diffusion
    operator has [2/N - 1] on the diagonal and [2/N] everywhere else,
    [N = 2^n]. *)
Theorem diffusion_matrix_entries (n i j : nat) :
  (i < 2 ^ n)%nat -> (j < 2 ^ n)%nat ->
  op_at (diffusion n) i j
  = RtoC (if (i =? j)%nat then 2 / INR (2 ^ n) - 1 else 2 / INR (2 ^ n)).
Proof.
  intros Hi Hj. rewrite diffusion_at by assumption. unfold delta.
  destruct (i =? j)%nat; apply C_eq; cbn; ring.
Qed.

Lemma diffusion_matrix_entries_witness :
  op_at (diffusion 3) 2 5
  = RtoC (if (2 =? 5)%nat then 2 / INR (2 ^ 3) - 1 else 2 / INR (2 ^ 3)).
Proof. apply (@diffusion_matrix_entries 3 2 5); simpl; lia. Defined.

(* ================================================================== *)
(** * The state stays normalised *)
(* ================================================================== *)

Section RealSums.

Lemma Rsum_ext f g n :
  (forall k, (k < n)%nat -> f k = g k) -> Rsum f n = Rsum g n.
Proof.
  induction n as [|n IH]; intros H; simpl; [reflexivity|].
  rewrite IH, H; auto.
Qed.

Lemma Rsum_plus f g n : Rsum (fun k => f k + g k) n = Rsum f n + Rsum g n.
Proof. induction n as [|n IH]; simpl; [|rewrite IH]; ring. Qed.

Lemma Rsum_scal c f n : Rsum (fun k => c * f k) n = c * Rsum f n.
Proof. induction n as [|n IH]; simpl; [|rewrite IH]; ring. Qed.

Lemma Rsum_const c n : Rsum (fun _ => c) n = INR n * c.
Proof.
  induction n as [|n IH]; [simpl; ring|].
  cbn [Rsum]. rewrite IH, S_INR. ring.
Qed.

Lemma Rsum_append f a d :
  Rsum f (a + d) = Rsum f a + Rsum (fun r => f (a + r)%nat) d.
Proof.
  induction d as [|d IH].
  - rewrite Nat.add_0_r. simpl. ring.
  - rewrite Nat.add_succ_r. simpl. rewrite IH. ring.
Qed.

Lemma Rsum_pairs f m :
  Rsum f (m * 2) = Rsum (fun q => f (q * 2)%nat + f (q * 2 + 1)%nat) m.
Proof.
  induction m as [|m IH]; [reflexivity|].
  replace (S m * 2)%nat with (m * 2 + 2)%nat by lia.
  rewrite Rsum_append, IH. cbn [Rsum]. rewrite Nat.add_0_r. ring.
Qed.

Lemma Re_Csum c n : Re (Csum c n) = Rsum (fun k => Re (c k)) n.
Proof.
  induction n as [|n IH]; [reflexivity|]. cbn. rewrite IH. reflexivity.
Qed.

Lemma Im_Csum c n : Im (Csum c n) = Rsum (fun k => Im (c k)) n.
Proof.
  induction n as [|n IH]; [reflexivity|]. cbn. rewrite IH. reflexivity.
Qed.

Lemma Cnorm2_mul a b : Cnorm2 (a * b)%C = Cnorm2 a * Cnorm2 b.
Proof. unfold Cnorm2. cbn. ring. Qed.

End RealSums.

Section Normalisation.

Variable n : nat.

(** The inversion about the mean keeps the sum of squared magnitudes. *)
Lemma diffusion_preserves_norm (c : nat -> C) :
  Rsum (fun x => Cnorm2 (st_at (Apply (diffusion n) (mkState n c)) x)) (2 ^ n)
  = Rsum (fun x => Cnorm2 (c x)) (2 ^ n).
Proof.
  pose proof (INR_pow2_pos n) as HN.
  set (mr := Re (mean n c)). set (mi := Im (mean n c)).
  rewrite (Rsum_ext _
    (fun x => (4 * mr * mr + 4 * mi * mi)
              + ((- 4 * mr) * Re (c x)
                 + ((- 4 * mi) * Im (c x) + Cnorm2 (c x))))).
  2:{ intros x Hx. rewrite Apply_diffusion by assumption.
      unfold Cnorm2, mr, mi. cbn. ring. }
  rewrite Rsum_plus, Rsum_const, Rsum_plus, Rsum_scal, Rsum_plus, Rsum_scal.
  rewrite <- Re_Csum, <- Im_Csum.
  assert (Er : Re (Csum c (2 ^ n)) = INR (2 ^ n) * mr).
  { unfold mr, mean. cbn. field. lra. }
  assert (Ei : Im (Csum c (2 ^ n)) = INR (2 ^ n) * mi).
  { unfold mi, mean. cbn. field. lra. }
  rewrite Er, Ei. ring.
Qed.

Variable f : Predicate.

Lemma Cnorm2_oracle_sign x a : Cnorm2 (oracle_sign n f x * a)%C = Cnorm2 a.
Proof.
  rewrite Cnorm2_mul. unfold oracle_sign.
  destruct (marked n f x); unfold Cnorm2; cbn; ring.
Qed.

Lemma search_step_preserves_norm phi :
  Rsum (fun x => Cnorm2 (st_at (search_step n f phi) x)) (2 ^ n)
  = Rsum (fun x => Cnorm2 (st_at phi x)) (2 ^ n).
Proof.
  unfold search_step. rewrite diffusion_preserves_norm.
  apply Rsum_ext. intros x _. apply Cnorm2_oracle_sign.
Qed.

Lemma search_state_norm k :
  Rsum (fun x => Cnorm2 (st_at (search_state n f k) x)) (2 ^ n) = 1.
Proof.
  induction k as [|k IH].
  - rewrite (Rsum_ext _ (fun _ => / INR (2 ^ n))).
    2:{ intros x _.
        change (st_at (search_state n f 0) x) with (RtoC (inv_sqrt2 ^ n)).
        rewrite Cnorm2_RtoC. apply inv_sqrt2_pow_sqr. }
    rewrite Rsum_const. apply Rinv_r. pose proof (INR_pow2_pos n). lra.
  - change (search_state n f (S k))
      with (search_step n f (search_state n f k)).
    rewrite search_step_preserves_norm. exact IH.
Qed.

Lemma Cnorm2_minus_state r :
  (r < 2)%nat -> Cnorm2 (st_at minus_state r) = / 2.
Proof.
  intros Hr. rewrite minus_state_at, Hadamard1_at by assumption.
  pose proof inv_sqrt2_sqr.
  destruct ((r =? 1)%nat && (1 =? 1)%nat); unfold Cnorm2; cbn; nra.
Qed.

Lemma loop_state_total_prob k :
  total_prob (loop_state n (oracle_matrix n f) k) = 1.
Proof.
  unfold total_prob. rewrite st_nbits_loop_state.
  rewrite Nat.pow_add_r. change (2 ^ 1)%nat with 2%nat.
  rewrite Rsum_pairs. rewrite <- (search_state_norm k).
  apply Rsum_ext. intros q Hq.
  assert (E : (2 ^ (n + 1) = 2 * 2 ^ n)%nat)
    by (rewrite Nat.add_1_r; apply Nat.pow_succ_r').
  unfold prob. rewrite !loop_state_factor by lia.
  rewrite !Cnorm2_mul.
  replace (q * 2)%nat with (q * 2 + 0)%nat at 1 2 by lia.
  destruct (@div_mod_unique_pair 2 q 0 ltac:(lia)) as [-> ->].
  destruct (@div_mod_unique_pair 2 q 1 ltac:(lia)) as [-> ->].
  rewrite !Cnorm2_minus_state by lia. field.
Qed.

End Normalisation.

(** X8: the state prepared before the loop has total probability 1, and so
    has the state after any number of passes of the loop, for every
    predicate the oracle builder accepts. *)
Theorem amplification_keeps_state_normalised
        (n : nat) (f : Predicate) (u : Operator) (r : Z) :
  OracleUf (n + 1) f = Ok u ->
  total_prob (initial_state n) = 1 /\
  total_prob (amplify (grover n u) r (initial_state n)) = 1.
Proof.
  intros Hu. apply OracleUf_Ok_matrix in Hu. subst u.
  split.
  - apply (loop_state_total_prob n f 0).
  - apply (loop_state_total_prob n f (Z.to_nat r)).
Qed.

Lemma amplification_keeps_state_normalised_witness :
  total_prob (initial_state 2) = 1 /\
  total_prob (amplify (grover 2 (oracle_matrix 2 all_ones)) 1
                      (initial_state 2)) = 1.
Proof.
  apply (@amplification_keeps_state_normalised
           2 all_ones (oracle_matrix 2 all_ones) 1%Z).
  reflexivity.
Defined.

(* ================================================================== *)
(** * The probability of reading the target *)
(* ================================================================== *)

Lemma amplify_loop_state n u k :
  amplify (grover n u) (Z.of_nat k) (initial_state n) = loop_state n u k.
Proof. unfold amplify, loop_state. rewrite Nat2Z.id. reflexivity. Qed.

Lemma line_prob_loop n w k :
  (w < 2 ^ n)%nat ->
  line_prob (loop_state n (oracle_matrix n (make_f n w)) k) w
  = fst (grover_amps n k) * fst (grover_amps n k).
Proof.
  intros Hw. unfold line_prob.
  assert (E : (2 ^ (n + 1) = 2 * 2 ^ n)%nat)
    by (rewrite Nat.add_1_r; apply Nat.pow_succ_r').
  rewrite !loop_state_prob by lia.
  rewrite (Nat.mul_comm 2 w), Nat.div_add_l, Nat.div_mul by lia.
  change (1 / 2)%nat with 0%nat. rewrite Nat.add_0_r, Nat.eqb_refl. lra.
Qed.

Lemma line_prob_loop_other n w k x :
  (w < 2 ^ n)%nat -> (x < 2 ^ n)%nat -> x <> w ->
  line_prob (loop_state n (oracle_matrix n (make_f n w)) k) x
  = snd (grover_amps n k) * snd (grover_amps n k).
Proof.
  intros Hw Hx Hne. unfold line_prob.
  assert (E : (2 ^ (n + 1) = 2 * 2 ^ n)%nat)
    by (rewrite Nat.add_1_r; apply Nat.pow_succ_r').
  rewrite !loop_state_prob by lia.
  rewrite (Nat.mul_comm 2 x), Nat.div_add_l, Nat.div_mul by lia.
  change (1 / 2)%nat with 0%nat. rewrite Nat.add_0_r.
  apply Nat.eqb_neq in Hne. rewrite Hne. lra.
Qed.

(** X9: with one marked string among [2^n], [n >= 1], the search lines read
    the target after [k] passes of the loop with probability
    [sin^2 ((2k+1) theta)], where [theta = arcsin (1 / sqrt (2^n))], and
    read any other given string with probability
    [cos^2 ((2k+1) theta) / (2^n - 1)]. *)
Theorem success_probability_closed_form (n w k : nat) (u : Operator) :
  (1 <= n)%nat -> (w < 2 ^ n)%nat ->
  OracleUf (n + 1) (make_f n w) = Ok u ->
  let psi := amplify (grover n u) (Z.of_nat k) (initial_state n) in
  let phi := (2 * INR k + 1) * grover_angle (INR (2 ^ n)) in
  line_prob psi w = sin phi * sin phi /\
  forall x, (x < 2 ^ n)%nat -> x <> w ->
            line_prob psi x = cos phi * cos phi / (INR (2 ^ n) - 1).
Proof.
  intros Hn Hw Hu psi phi. apply OracleUf_Ok_matrix in Hu. subst u.
  unfold psi. rewrite amplify_loop_state.
  destruct (@grover_amps_closed_form n k Hn) as [Ha Hb].
  fold phi in Ha, Hb.
  pose proof (size_ge_2 Hn) as H2.
  assert (HN : 1 < INR (2 ^ n)) by lra.
  split.
  - rewrite line_prob_loop by assumption. rewrite Ha. reflexivity.
  - intros x Hx Hne. rewrite line_prob_loop_other by assumption.
    rewrite <- Hb. pose proof (root_pred_sqr HN) as Hr.
    set (b := snd (grover_amps n k)) in *.
    set (q := root_pred (INR (2 ^ n))) in *.
    replace (b * q * (b * q)) with (b * b * (q * q)) by ring.
    rewrite Hr. field. lra.
Qed.

Lemma success_probability_closed_form_witness :
  let psi := amplify (grover 2 (oracle_matrix 2 (make_f 2 1)))
                     (Z.of_nat 1) (initial_state 2) in
  let phi := (2 * INR 1 + 1) * grover_angle (INR (2 ^ 2)) in
  line_prob psi 1 = sin phi * sin phi /\
  forall x, (x < 2 ^ 2)%nat -> x <> 1%nat ->
            line_prob psi x = cos phi * cos phi / (INR (2 ^ 2) - 1).
Proof.
  apply (@success_probability_closed_form
           2 1 1 (oracle_matrix 2 (make_f 2 1))).
  - lia.
  - simpl; lia.
  - reflexivity.
Defined.

(** The amplitudes as integer numerators over [N^k * sqrt N]. *)
Lemma grover_amps_exact n k :
  fst (grover_amps n k)
  = IZR (fst (amps_num (2 ^ Z.of_nat n) k)) / INR (2 ^ n) ^ k * inv_sqrt2 ^ n /\
  snd (grover_amps n k)
  = IZR (snd (amps_num (2 ^ Z.of_nat n) k)) / INR (2 ^ n) ^ k * inv_sqrt2 ^ n.
Proof.
  pose proof (INR_pow2_pos n) as HN.
  induction k as [|k [IHa IHb]].
  - cbn [grover_amps amps_num fst snd pow]. split; field.
  - cbn [grover_amps amps_num fst snd]. rewrite IHa, IHb.
    rewrite !plus_IZR, !mult_IZR, !minus_IZR, IZR_size.
    cbn [pow].
    assert (Hp : 0 < INR (2 ^ n) ^ k) by (apply pow_lt, HN).
    split; field; lra.
Qed.

Lemma success_fraction_pos n k : (0 < snd (success_fraction n k))%Z.
Proof.
  unfold success_fraction. cbn [snd]. apply Z.pow_pos_nonneg; [|lia].
  apply Z.pow_pos_nonneg; lia.
Qed.

Lemma line_prob_exact (n w k : nat) :
  (w < 2 ^ n)%nat ->
  line_prob (loop_state n (oracle_matrix n (make_f n w)) k) w
  = IZR (fst (success_fraction n k)) / IZR (snd (success_fraction n k)).
Proof.
  intros Hw. rewrite line_prob_loop by assumption.
  destruct (grover_amps_exact n k) as [Ha _]. rewrite Ha.
  unfold success_fraction. cbn [fst snd].
  replace (2 * Z.of_nat k + 1)%Z with (Z.of_nat (2 * k + 1)) by lia.
  rewrite <- pow_IZR, IZR_size, mult_IZR.
  pose proof (INR_pow2_pos n) as HN.
  assert (Hp : 0 < INR (2 ^ n) ^ k) by (apply pow_lt, HN).
  replace (INR (2 ^ n) ^ (2 * k + 1))
    with (INR (2 ^ n) ^ k * INR (2 ^ n) ^ k * INR (2 ^ n))
    by (rewrite pow_add, (Nat.mul_comm 2 k), pow_mult; simpl; ring).
  pose proof (inv_sqrt2_pow_sqr n) as Hs.
  set (s := inv_sqrt2 ^ n) in *. set (A := IZR (fst (amps_num _ k))).
  set (P := INR (2 ^ n) ^ k) in *.
  replace (A / P * s * (A / P * s)) with (A * A / (P * P) * (s * s))
    by (field; lra).
  rewrite Hs. field. lra.
Qed.

(** X10: the probability of reading the target after [k] passes is a
    rational number the integer recurrence [amps_num] computes exactly: the
    square of its marked numerator over [N^(2k+1)], [N = 2^n]. *)
Theorem success_probability_is_exact_fraction
        (n w k : nat) (u : Operator) :
  (w < 2 ^ n)%nat ->
  OracleUf (n + 1) (make_f n w) = Ok u ->
  (0 < snd (success_fraction n k))%Z /\
  line_prob (amplify (grover n u) (Z.of_nat k) (initial_state n)) w
  = IZR (fst (success_fraction n k)) / IZR (snd (success_fraction n k)).
Proof.
  intros Hw Hu. apply OracleUf_Ok_matrix in Hu. subst u.
  split; [apply success_fraction_pos|].
  rewrite amplify_loop_state. apply line_prob_exact, Hw.
Qed.

Lemma success_probability_is_exact_fraction_witness :
  (0 < snd (success_fraction 3 2))%Z /\
  line_prob (amplify (grover 3 (oracle_matrix 3 (make_f 3 5)))
                     (Z.of_nat 2) (initial_state 3)) 5
  = IZR (fst (success_fraction 3 2)) / IZR (snd (success_fraction 3 2)).
Proof.
  apply (@success_probability_is_exact_fraction
           3 5 2 (oracle_matrix 3 (make_f 3 5))).
  - simpl; lia.
  - reflexivity.
Defined.

Lemma driver_sizes_amp n :
  (3 <= n <= 7)%nat ->
  94 / 100 < fst (grover_amps n (Z.to_nat (passes n)))
             * fst (grover_amps n (Z.to_nat (passes n))).
Proof.
  intros Hn.
  assert (Hw : (0 < 2 ^ n)%nat) by apply pow2_pos.
  rewrite <- (@line_prob_loop n 0 _ Hw).
  rewrite line_prob_exact by assumption.
  assert (I3 : passes 3 = 2%Z) by (vm_compute; reflexivity).
  assert (I4 : passes 4 = 3%Z) by (vm_compute; reflexivity).
  assert (I5 : passes 5 = 4%Z) by (vm_compute; reflexivity).
  assert (I6 : passes 6 = 6%Z) by (vm_compute; reflexivity).
  assert (I7 : passes 7 = 8%Z) by (vm_compute; reflexivity).
  assert (n = 3 \/ n = 4 \/ n = 5 \/ n = 6 \/ n = 7)%nat
    as [E|[E|[E|[E|E]]]] by lia; subst n.
  - rewrite I3. set (q := success_fraction _ _). vm_compute in q.
    subst q. cbn [fst snd]. lra.
  - rewrite I4. set (q := success_fraction _ _). vm_compute in q.
    subst q. cbn [fst snd]. lra.
  - rewrite I5. set (q := success_fraction _ _). vm_compute in q.
    subst q. cbn [fst snd]. lra.
  - rewrite I6. set (q := success_fraction _ _). vm_compute in q.
    subst q. cbn [fst snd]. lra.
  - rewrite I7. set (q := success_fraction _ _). vm_compute in q.
    subst q. cbn [fst snd]. lra.
Qed.

(** X12: for each of the sizes the driver runs, 3 to 7 search lines, and
    every target, the search lines of the measured state read the target
    with probability above 0.94. *)
Theorem driver_sizes_succeed_with_high_probability (n w : nat) :
  (3 <= n <= 7)%nat -> (w < 2 ^ n)%nat ->
  94 / 100 < line_prob (final_state n w) w.
Proof.
  intros Hn Hw. rewrite line_prob_final by assumption.
  apply driver_sizes_amp, Hn.
Qed.

Lemma driver_sizes_succeed_with_high_probability_witness :
  94 / 100 < line_prob (final_state 3 5) 5.
Proof.
  apply (@driver_sizes_succeed_with_high_probability 3 5).
  - lia.
  - simpl; lia.
Defined.

Lemma sin_sqr_le_sqr d : -1 <= d <= 1 -> sin d * sin d <= d * d.
Proof.
  intros Hd. pose proof PI2_3_2 as Hpi.
  assert (H : forall e, 0 <= e <= 1 -> 0 <= sin e <= e).
  { intros e He. split.
    - apply sin_ge_0; lra.
    - destruct (Req_dec e 0) as [->|Hne]; [rewrite sin_0; lra|].
      apply Rlt_le, sin_lt_x. lra. }
  destruct (Rle_lt_dec 0 d) as [H0|H0].
  - specialize (H d ltac:(lra)). nra.
  - specialize (H (- d) ltac:(lra)). rewrite sin_neg in H. nra.
Qed.

Section Accuracy.

Variable N : R.
Hypothesis HN : 4 <= N.

Lemma grover_angle_cubic :
  grover_angle N
  <= inv_sqrt N + 21 / 100 * (inv_sqrt N * inv_sqrt N * inv_sqrt N).
Proof.
  pose proof (grover_angle_bounds HN) as [Hl Hu].
  pose proof (size_gt_1 HN) as H1.
  pose proof (grover_angle_range H1) as [H0 _].
  pose proof (sin_grover_angle H1) as Hs.
  pose proof (inv_sqrt_le_half HN) as Hh.
  pose proof (inv_sqrt_pos H1) as Hp.
  pose proof (@sin_cubic_lower (grover_angle N) ltac:(lra)) as Hc.
  rewrite Hs in Hc.
  set (s := inv_sqrt N) in *. set (th := grover_angle N) in *.
  assert (H3 : th ^ 3 <= (27 / 25 * s) ^ 3) by (apply pow_incr; lra).
  replace ((27 / 25 * s) ^ 3) with (19683 / 15625 * (s * s * s)) in H3
    by field.
  assert (0 <= s * s * s) by (apply Rmult_le_pos; nra).
  lra.
Qed.

(** How far the rotation reached by the schedule is from a quarter turn. *)
Lemma schedule_angle_near_quarter_turn (r : R) :
  r <= PI / 4 * sqrt N < r + 1 -> 0 <= r ->
  - inv_sqrt N < (2 * r + 1) * grover_angle N - PI / 2
  <= 122 / 100 * inv_sqrt N.
Proof.
  intros [Hr1 Hr2] Hr0.
  pose proof (grover_angle_bounds HN) as [Hl _].
  pose proof grover_angle_cubic as Hu.
  pose proof (size_gt_1 HN) as H1.
  pose proof (sqrt_inv_sqrt H1) as Hq.
  pose proof (inv_sqrt_pos H1) as Hs0.
  pose proof (inv_sqrt_le_half HN) as Hs2.
  pose proof PI_bounds as Hpi.
  set (s := inv_sqrt N) in *. set (th := grover_angle N) in *.
  set (x := PI / 4 * sqrt N) in *.
  assert (E : x * s = PI / 4) by (unfold x; rewrite Rmult_assoc, Hq; ring).
  split.
  - assert ((2 * r + 1) * s <= (2 * r + 1) * th) by nra.
    assert ((2 * x - 1) * s < (2 * r + 1) * s) by nra.
    nra.
  - assert (Hss : s * s <= / 2 * s) by nra.
    assert (Hsss : s * s * s <= / 4 * s) by nra.
    assert (H3 : 0 <= s * s * s) by (apply Rmult_le_pos; nra).
    assert (Ha : (2 * r + 1) * th
                 <= (2 * x + 1) * (s + 21 / 100 * (s * s * s))) by nra.
    assert (Hb : (2 * x + 1) * (s + 21 / 100 * (s * s * s))
                 = PI / 2 + s + 21 / 100 * (PI / 2) * (s * s)
                   + 21 / 100 * (s * s * s)).
    { replace ((2 * x + 1) * (s + 21 / 100 * (s * s * s)))
        with (2 * (x * s) + s + 21 / 100 * (2 * (x * s)) * (s * s)
              + 21 / 100 * (s * s * s)) by ring.
      rewrite E. field. }
    assert (Hc : 21 / 100 * (PI / 2) * (s * s) <= 166 / 1000 * s) by nra.
    lra.
Qed.

Lemma schedule_sin_sqr (r : R) :
  r <= PI / 4 * sqrt N < r + 1 -> 0 <= r ->
  1 - 3 / (2 * N)
  <= sin ((2 * r + 1) * grover_angle N) * sin ((2 * r + 1) * grover_angle N).
Proof.
  intros Hr Hr0.
  pose proof (schedule_angle_near_quarter_turn Hr Hr0) as [Hl Hu].
  pose proof (size_gt_1 HN) as H1.
  pose proof (inv_sqrt_pos H1) as Hs0.
  pose proof (inv_sqrt_le_half HN) as Hs2.
  pose proof (inv_sqrt_sqr H1) as Hss.
  set (phi := (2 * r + 1) * grover_angle N) in *.
  set (d := phi - PI / 2) in *.
  replace phi with (PI / 2 + d) by (unfold d; ring).
  rewrite <- cos_sin.
  pose proof (sin2_cos2 d) as Hsc. unfold Rsqr in Hsc.
  pose proof (@sin_sqr_le_sqr d ltac:(lra)) as Hd.
  assert (Hd2 : d * d <= 3 / 2 * (inv_sqrt N * inv_sqrt N)) by nra.
  rewrite Hss in Hd2.
  replace (3 / (2 * N)) with (3 / 2 * / N) by (field; lra).
  lra.
Qed.

End Accuracy.

(** X11: from 2 to 20 search lines, where the binary64 count of the program
    is the integer part of [pi/4 * sqrt N], the search lines of the measured
    state read the target with probability at least [1 - 3 / (2 N)],
    [N = 2^n]: the failure probability falls off as the inverse of the size
    of the search space. *)
Theorem success_probability_bound (n w : nat) :
  (2 <= n <= 20)%nat -> (w < 2 ^ n)%nat ->
  1 - 3 / (2 * INR (2 ^ n)) <= line_prob (final_state n w) w <= 1.
Proof.
  intros Hn Hw. rewrite line_prob_final by assumption.
  rewrite passes_agrees_real by lia.
  pose proof (@size_ge_4 n ltac:(lia)) as H4.
  destruct (@grover_amps_closed_form n (Z.to_nat (iterations_real n))
              ltac:(lia)) as [Ha _].
  destruct (iterations_real_floor n) as (_ & H0 & Hr).
  rewrite Ha, INR_iterations_real.
  split.
  - apply (schedule_sin_sqr H4 Hr). apply (IZR_le 0), H0.
  - pose proof (SIN_bound ((2 * IZR (iterations_real n) + 1)
                           * grover_angle (INR (2 ^ n)))). nra.
Qed.

Lemma success_probability_bound_witness :
  1 - 3 / (2 * INR (2 ^ 4)) <= line_prob (final_state 4 9) 9 <= 1.
Proof.
  apply (@success_probability_bound 4 9).
  - lia.
  - simpl; lia.
Defined.

(* ================================================================== *)
(** * More on the schedule *)
(* ================================================================== *)

Lemma iterations_doubling_check :
  forallb (fun n => match iterations n, iterations (n + 2) with
                    | Ok r, Ok r' =>
                        ((r' =? 2 * r) || (r' =? 2 * r + 1))%Z
                    | _, _ => false
                    end) (seq 0 1022) = true.
Proof. vm_compute. reflexivity. Qed.

(** X13: as long as the count is computed, four times as many candidates
    take twice as many iterations, or one more than twice; from
    [nbits + 2 = 1024] on the count for the larger size raises
    [OverflowError]. *)
Theorem iterations_double_when_size_quadruples (nbits : nat) :
  ((nbits + 2 <= 1023)%nat /\
   exists r r' : Z,
     iterations nbits = Ok r /\ iterations (nbits + 2) = Ok r' /\
     (r' = (2 * r)%Z \/ r' = (2 * r + 1)%Z)) \/
  ((1023 < nbits + 2)%nat /\
   iterations (nbits + 2) = Raise OverflowError).
Proof.
  destruct (Nat.le_gt_cases (nbits + 2) 1023) as [H|H].
  - left. split; [exact H|].
    pose proof iterations_doubling_check as C.
    rewrite forallb_forall in C.
    specialize (C nbits ltac:(apply in_seq; lia)).
    destruct (iterations nbits) as [r|e]; [|discriminate].
    destruct (iterations (nbits + 2)) as [r'|e']; [|discriminate].
    exists r, r'. split; [reflexivity|]. split; [reflexivity|].
    apply orb_prop in C as [C|C]; apply Z.eqb_eq in C; [left|right]; exact C.
  - right. split; [exact H|]. apply iterations_overflow, H.
Qed.



(** X15: up to 20 search lines the count computed in binary64 arithmetic,
    as the interpreter does, is the count over the reals. *)
Theorem iterations_float_exact n :
  (n <= 20)%nat -> iterations n = Ok (iterations_real n).
Proof. apply iterations_agrees_real. Qed.

Lemma iterations_float_exact_witness :
  iterations 12 = Ok (iterations_real 12).
Proof. apply (@iterations_float_exact 12). lia. Defined.

(** X16: in binary64 arithmetic the count is a non-negative integer for up
    to 1023 search lines; from 1024 on the conversion of [2**nbits] to a
    float overflows and the computation raises [OverflowError]. *)
Theorem iterations_float_range (nbits : nat) :
  ((nbits <= 1023)%nat /\
   exists r, iterations nbits = Ok r /\ (0 <= r)%Z) \/
  ((1023 < nbits)%nat /\ iterations nbits = Raise OverflowError).
Proof.
  destruct (Nat.le_gt_cases nbits 1023) as [H|H].
  - left. split; [exact H|].
    pose proof iterations_float_total_check as C.
    rewrite forallb_forall in C.
    specialize (C nbits ltac:(apply in_seq; lia)).
    destruct (iterations nbits) as [r|e]; [|discriminate].
    exists r. split; [reflexivity|]. apply Z.leb_le, C.
  - right. split; [exact H|].
    unfold iterations, float_of_pow2.
    apply Nat.leb_gt in H. rewrite H. reflexivity.
Qed.

(* ================================================================== *)
(** * The driver *)
(* ================================================================== *)

Lemma run_sizes_marked draws sizes :
  Forall (fun n => (2 <= n <= 1023)%nat /\ (draws n < 2 ^ n)%nat) sizes ->
  run_sizes draws sizes
  = Ok (map (fun n => (val2bits n (draws n) ++ [false],
                       fst (grover_amps n (Z.to_nat (passes n)))
                       * fst (grover_amps n (Z.to_nat (passes n))) / 2))
            sizes).
Proof.
  induction 1 as [|n rest [Hn Hw] _ IH]; [reflexivity|].
  cbn [run_sizes map]. rewrite run_experiment_marked by assumption.
  cbn [bind]. rewrite IH. reflexivity.
Qed.

(** X3: [main] raises the usage error when given more than one argument and
    nothing else; otherwise, whatever targets are drawn, it completes the
    five runs for 3 to 7 search lines, each run reporting its target
    followed by ancilla 0, with a probability above 0.47 and at most 1/2
    for that single basis string. *)
Theorem main_finds_every_target
        (argv : list String.string) (draws : nat -> nat) :
  (forall n, (3 <= n <= 7)%nat -> (draws n < 2 ^ n)%nat) ->
  ((1 < length argv)%nat /\ main argv draws = UsageError) \/
  ((length argv <= 1)%nat /\
   exists reports,
     main argv draws = Completed reports /\
     map fst reports
     = map (fun n => val2bits n (draws n) ++ [false]) [3; 4; 5; 6; 7]%nat /\
     Forall (fun r => 47 / 100 < snd r <= / 2) reports).
Proof.
  intros Hd. unfold main.
  destruct (Nat.ltb_spec 1 (length argv)) as [H|H].
  - left. split; [exact H|reflexivity].
  - right. split; [exact H|].
    rewrite run_sizes_marked.
    + eexists. split; [reflexivity|]. split.
      * rewrite map_map. reflexivity.
      * apply Forall_map. apply Forall_forall. intros n Hn. cbn [snd].
        apply in_seq in Hn.
        pose proof (@driver_sizes_amp n ltac:(lia)).
        pose proof (@amps_sqr_le_1 n (Z.to_nat (passes n)) ltac:(lia)).
        lra.
    + apply Forall_forall. intros n Hn. apply in_seq in Hn.
      split; [lia|apply Hd; lia].
Qed.

Lemma main_finds_every_target_witness :
  ((1 < length (@nil String.string))%nat
   /\ main [] (fun _ => 5%nat) = UsageError) \/
  ((length (@nil String.string) <= 1)%nat /\
   exists reports,
     main [] (fun _ => 5%nat) = Completed reports /\
     map fst reports
     = map (fun n => val2bits n 5 ++ [false]) [3; 4; 5; 6; 7]%nat /\
     Forall (fun r => 47 / 100 < snd r <= / 2) reports).
Proof.
  apply (@main_finds_every_target [] (fun _ => 5%nat)).
  intros n Hn.
  apply Nat.lt_le_trans with (2 ^ 3)%nat; [simpl; lia|].
  apply Nat.pow_le_mono_r; lia.
Defined.
